(** * incfg: configuration-option registry, codecs and loaders

    A shallow embedding of [incfg.hpp] / [incfg.cpp].

    - [std::string] is a [list ascii]; [npos] is [None].
    - [int] is a [Z] in the 32-bit signed range, [unsigned int] a [Z]
      taken modulo [2^32].
    - [Option*] is an [option] of a record ([None] is the null pointer);
      the options a registry points to are distinct objects, so a
      mutation through the pointer is an update of the map entry.
    - [std::map<std::string, Option*>] is an association list kept in
      strictly increasing key order, which is the iteration order of the
      C++ container.
    - an exception is a value of [exception]; dereferencing a null
      pointer or reading [argv[argc]] is [Undefined].

    The value type has the option types [int], [bool] and
    [std::string]. Options of type [double] are left out: the generic
    codec writes them with [ss << val], six significant digits, so what
    is read back is in general another number, and nothing stated here
    about written and re-read values holds for them. *)

From Stdlib Require Import String Ascii List ZArith Lia Bool Arith.
From Stdlib Require Import Sorting.Sorted Relations.Relation_Definitions.
Import ListNotations.

Set Implicit Arguments.

Module incfg.

(** ** std::string *)

Definition str := list ascii.

(** A string literal of the source. *)
Definition lit (x : string) : str := list_ascii_of_string x.

Definition nul : ascii := "000"%char.
Definition nl : ascii := "010"%char.
Definition cr : ascii := "013"%char.
Definition sp : ascii := " "%char.
Definition hash : ascii := "#"%char.
Definition dash : ascii := "-"%char.
Definition eqc : ascii := "="%char.
Definition dq : ascii := "034"%char.

(** [s[i]]; [s[s.length()]] is the terminating NUL. *)
Definition at_ (s : str) (i : nat) : ascii := nth i s nul.

(** [s.substr(pos, count)], for [pos <= s.length()]. *)
Definition substr (s : str) (pos count : nat) : str := firstn count (skipn pos s).

(** [s.find_first_of(c)]. *)
Fixpoint find_first_of (s : str) (c : ascii) : option nat :=
  match s with
  | [] => None
  | x :: t =>
      if Ascii.eqb x c then Some 0
      else match find_first_of t c with
           | Some i => Some (S i)
           | None => None
           end
  end.

(** [s.find_last_of(c)]. *)
Fixpoint find_last_of (s : str) (c : ascii) : option nat :=
  match s with
  | [] => None
  | x :: t =>
      match find_last_of t c with
      | Some i => Some (S i)
      | None => if Ascii.eqb x c then Some 0 else None
      end
  end.

(** [std::remove(first, last, c)] on a range: the kept elements. *)
Definition remove (c : ascii) (range : str) : str :=
  filter (fun x => negb (Ascii.eqb x c)) range.

(** [s.erase(std::remove(s.begin()+i, s.begin()+j, c), s.begin()+j)]
    for [i <= j <= s.length()]. *)
Definition erase_remove (i j : nat) (c : ascii) (s : str) : str :=
  firstn i s ++ remove c (firstn (j - i)%nat (skipn i s)) ++ skipn j s.

(** [a.compare(b)], the order of [std::less<std::string>]: characters
    compare as unsigned bytes, a proper prefix is smaller. *)
Fixpoint compare (a b : str) : comparison :=
  match a, b with
  | [], [] => Eq
  | [], _ :: _ => Lt
  | _ :: _, [] => Gt
  | x :: a', y :: b' =>
      match Ascii.compare x y with
      | Eq => compare a' b'
      | c => c
      end
  end.

Definition str_eqb (a b : str) : bool :=
  match compare a b with Eq => true | _ => false end.

Definition str_lt (a b : str) : Prop := compare a b = Lt.

(** ** Exceptions *)

Inductive exception : Type :=
| StringParseException (what_arg : str)
| ConfigOptionsLoadException (what_arg : str).

Definition what (e : exception) : str :=
  match e with
  | StringParseException w => w
  | ConfigOptionsLoadException w => w
  end.

(** ** Formatted output and input of integers through std::stringstream *)

Definition digit_char (d : Z) : ascii := ascii_of_nat (48 + Z.to_nat d).

Definition is_digit (c : ascii) : bool :=
  (48 <=? nat_of_ascii c)%nat && (nat_of_ascii c <=? 57)%nat.

Definition digit_val (c : ascii) : Z := (Z.of_nat (nat_of_ascii c) - 48)%Z.

(** Decimal digits of [n >= 0], most significant first, in front of [acc]. *)
Fixpoint digits_aux (fuel : nat) (n : Z) (acc : str) : str :=
  match fuel with
  | O => acc
  | S fuel' =>
      let acc' := digit_char (n mod 10)%Z :: acc in
      if (n <? 10)%Z then acc' else digits_aux fuel' (n / 10)%Z acc'
  end.

(** [ss << n] for a non-negative integer. *)
Definition digits (n : Z) : str := digits_aux (S (Z.to_nat (Z.log2 n))) n [].

(** [ss << val] for [int]. *)
Definition put_int (val : Z) : str :=
  if (val <? 0)%Z then dash :: digits (- val)%Z else digits val.

Definition INT_MIN : Z := (- 2 ^ 31)%Z.
Definition INT_MAX : Z := (2 ^ 31 - 1)%Z.
Definition in_int (z : Z) : bool := (INT_MIN <=? z)%Z && (z <=? INT_MAX)%Z.

Definition UINT_MOD : Z := (2 ^ 32)%Z.

(** Arithmetic of [unsigned int]. *)
Definition uint (z : Z) : Z := (z mod UINT_MOD)%Z.

Definition isspace (c : ascii) : bool :=
  let n := nat_of_ascii c in (n =? 32) || ((9 <=? n) && (n <=? 13)).

Fixpoint skipws (s : str) : str :=
  match s with
  | c :: t => if isspace c then skipws t else s
  | [] => []
  end.

Fixpoint take_digits (s : str) : str :=
  match s with
  | c :: t => if is_digit c then c :: take_digits t else []
  | [] => []
  end.

Definition digits_value (ds : str) : Z :=
  fold_left (fun a c => (10 * a + digit_val c)%Z) ds 0%Z.

(** [ss >> val] for [int]: leading white space is skipped, an optional
    sign and the longest run of digits are read; [None] is [ss.fail()]
    (no digit, or a value outside the range of [int]). What follows the
    digits stays unread. *)
Definition get_int (s : str) : option Z :=
  let s1 := skipws s in
  let '(neg, s2) :=
    match s1 with
    | c :: t =>
        if Ascii.eqb c dash then (true, t)
        else if Ascii.eqb c "+"%char then (false, t)
        else (false, s1)
    | [] => (false, s1)
    end in
  match take_digits s2 with
  | [] => None
  | ds =>
      let v := if neg then (- digits_value ds)%Z else digits_value ds in
      if in_int v then Some v else None
  end.

(** ** Value codec *)

(** The [TYPE] parameter of [INCFG_REQUIRE] together with a value of it. *)
Inductive value : Type :=
| VInt (z : Z)
| VBool (b : bool)
| VString (s : str).

(** [new_value == value] at one [TYPE]. *)
Definition value_eqb (a b : value) : bool :=
  match a, b with
  | VInt x, VInt y => Z.eqb x y
  | VBool x, VBool y => Bool.eqb x y
  | VString x, VString y => str_eqb x y
  | _, _ => false
  end.

Definition to_string_helper_generic (val : Z) : str := put_int val.

Definition from_string_helper_generic (s : str) : exception + Z :=
  match get_int s with
  | None =>
      inl (StringParseException
             (lit "Unable to parse " ++ s ++ lit " to its defined type"))
  | Some val => inr val
  end.

Definition from_string_helper_bool (s : str) : exception + bool :=
  if negb (str_eqb s (lit "true")) && negb (str_eqb s (lit "false"))
  then inl (StringParseException
              (lit "Unable to parse " ++ s ++ lit " to " ++
               dq :: lit "true" ++ dq :: lit " or " ++ dq :: lit "false" ++ [dq]))
  else inr (str_eqb s (lit "true")).

Definition from_string_helper_string (s : str) : exception + str :=
  if (length s <? 2)%nat then inr s
  else if Ascii.eqb (at_ s 0) dq && Ascii.eqb (at_ s (length s - 1)%nat) dq
       then inr (substr s 1 (length s - 2)%nat)
       else inr s.

Definition to_string_helper_string (val : str) : str := [dq] ++ val ++ [dq].

Definition to_string_helper_bool (val : bool) : str :=
  if val then lit "true" else lit "false".

(** [to_string_helper<TYPE>(value)]. *)
Definition to_string_helper (val : value) : str :=
  match val with
  | VInt z => to_string_helper_generic z
  | VBool b => to_string_helper_bool b
  | VString s => to_string_helper_string s
  end.

(** [from_string_helper<TYPE>(str, mytype)]: [mytype] selects the
    specialization. *)
Definition from_string_helper (s : str) (mytype : value) : exception + value :=
  match mytype with
  | VInt _ =>
      match from_string_helper_generic s with inl e => inl e | inr z => inr (VInt z) end
  | VBool _ =>
      match from_string_helper_bool s with inl e => inl e | inr b => inr (VBool b) end
  | VString _ =>
      match from_string_helper_string s with inl e => inl e | inr v => inr (VString v) end
  end.

Definition is_boolean (_type : value) : bool :=
  match _type with VBool _ => true | _ => false end.

(** ** Option *)

(** The class generated by [INCFG_REQUIRE]. *)
Record Option : Type := mkOption {
  name : str;
  description : str;
  value_ : value;
  is_def : bool
}.

(** The constructor taking the default value. *)
Definition Option_new (_name _description : str) (v : value) : Option :=
  mkOption _name _description v true.

Definition is_default (o : Option) : bool := is_def o.
Definition is_bool (o : Option) : bool := is_boolean (value_ o).
Definition get_value (o : Option) : value := value_ o.
Definition get_value_as_str (o : Option) : str := to_string_helper (value_ o).

Definition set (new_value : value) (o : Option) : Option :=
  mkOption (name o) (description o) new_value
           (is_def o && value_eqb new_value (value_ o)).

(** An exception of the codec leaves the option as it was. *)
Definition parse_value_from_str (s : str) (o : Option) : exception + Option :=
  match from_string_helper s (value_ o) with
  | inl e => inl e
  | inr v => inr (set v o)
  end.

(** ** ConfigOptions *)

(** [Option*]. *)
Definition ptr : Type := option Option.
Definition nullptr : ptr := None.

(** The member [options], in iteration order. *)
Definition ConfigOptions : Type := list (str * ptr).

(** [options.find(k)]; [None] is [options.end()]. *)
Fixpoint find (k : str) (m : ConfigOptions) : option ptr :=
  match m with
  | [] => None
  | (k', p) :: m' => if str_eqb k k' then Some p else find k m'
  end.

(** [options[k] = p]. *)
Fixpoint insert (k : str) (p : ptr) (m : ConfigOptions) : ConfigOptions :=
  match m with
  | [] => [(k, p)]
  | (k', p') :: m' =>
      match compare k k' with
      | Lt => (k, p) :: m
      | Eq => (k, p) :: m'
      | Gt => (k', p') :: insert k p m'
      end
  end.

(** [options[k]] as an rvalue: a missing key is inserted with a
    value-initialized (null) pointer. *)
Definition subscript (k : str) (m : ConfigOptions) : ptr * ConfigOptions :=
  match find k m with
  | Some p => (p, m)
  | None => (nullptr, insert k nullptr m)
  end.

(** The object [options[k]] points to becomes [o]. *)
Fixpoint store (k : str) (o : Option) (m : ConfigOptions) : ConfigOptions :=
  match m with
  | [] => []
  | (k', p) :: m' =>
      if str_eqb k k' then (k', Some o) :: m' else (k', p) :: store k o m'
  end.

Definition add_option (opt : Option) (m : ConfigOptions) : ConfigOptions :=
  match find (name opt) m with
  | None => insert (name opt) (Some opt) m
  | Some _ => m
  end.

Definition get (_name : str) (m : ConfigOptions) : ptr * ConfigOptions :=
  subscript _name m.

Definition size (m : ConfigOptions) : nat := length m.

(** What one iteration of the loop of [to_config_string] writes to [ss]. *)
Definition entry_text (first : str) (second : Option) : str :=
  (if 0 <? length (description second)
   then lit "# " ++ description second ++ [nl] ++ lit "# " ++ [nl]
   else []) ++
  (if is_default second then lit "#" else []) ++
  first ++ lit "=" ++ get_value_as_str second ++ [nl] ++ [nl].

(** [None]: a null pointer of the map is dereferenced. *)
Fixpoint to_config_string (m : ConfigOptions) : option str :=
  match m with
  | [] => Some []
  | (first, None) :: _ => None
  | (first, Some second) :: m' =>
      match to_config_string m' with
      | Some ss => Some (entry_text first second ++ ss)
      | None => None
      end
  end.

(** ** Loaders *)

(** How a call of [load] ends: it returns, it throws (the options keep
    what was assigned before), or its behaviour is undefined. *)
Inductive outcome : Type :=
| Done (m : ConfigOptions)
| Threw (e : exception) (m : ConfigOptions)
| Undefined.

Definition msg_invalid_option (key : str) : str :=
  lit "Invalid configuration option: " ++ key.
Definition msg_unexpected_key (key : str) : str :=
  lit "Unexpected key: " ++ key.
Definition msg_value_expected (key : str) : str :=
  lit "A value is expected for configuration option " ++ key.
Definition msg_invalid_value (value key : str) : str :=
  value ++ lit " is an invalid value for key " ++ key.

(** The loop of [load(argc, argv)] from index [idx] on. [None]: out of
    fuel. *)
Fixpoint load_args_loop (fuel argc : nat) (argv : list str) (idx : nat)
    (m : ConfigOptions) : option outcome :=
  match fuel with
  | O => None
  | S fuel' =>
      if idx <? argc then
        match nth_error argv idx with
        | None => Some Undefined
        | Some key =>
            if length key <? 3
            then Some (Threw (ConfigOptionsLoadException (msg_invalid_option key)) m)
            else if negb (Ascii.eqb (at_ key 0) dash) && negb (Ascii.eqb (at_ key 1) dash)
            then Some (Threw (ConfigOptionsLoadException (msg_invalid_option key)) m)
            else
              let key := substr key 2 (length key - 1) in
              match find key m with
              | None => Some (Threw (ConfigOptionsLoadException (msg_unexpected_key key)) m)
              | Some None => Some Undefined
              | Some (Some o) =>
                  if is_bool o then
                    match parse_value_from_str (lit "true") o with
                    | inl e => Some (Threw e m)
                    | inr o' => load_args_loop fuel' argc argv (S idx) (store key o' m)
                    end
                  else if idx =? argc
                  then Some (Threw (ConfigOptionsLoadException (msg_value_expected key)) m)
                  else
                    match nth_error argv (S idx) with
                    | None => Some Undefined
                    | Some value =>
                        if (1 <? length value) && Ascii.eqb (at_ value 0) dash
                           && Ascii.eqb (at_ value 1) dash
                        then Some (Threw (ConfigOptionsLoadException
                                            (msg_invalid_value value key)) m)
                        else
                          match parse_value_from_str value o with
                          | inl e => Some (Threw e m)
                          | inr o' =>
                              load_args_loop fuel' argc argv (S (S idx)) (store key o' m)
                          end
                    end
              end
        end
      else Some (Done m)
  end.

(** [load(int argc, char* argv[])]; [argv] holds the [argc] arguments. *)
Definition load_argv (argc : nat) (argv : list str) (m : ConfigOptions)
    : option outcome :=
  if argc <? 2 then Some (Done m) else load_args_loop argc argc argv 1 m.

(** A [std::istream] over characters held in memory. *)
Record istream : Type := mkIstream {
  rest : str;
  eofbit : bool;
  failbit : bool
}.

Definition eof (isr : istream) : bool := eofbit isr.
Definition fail (isr : istream) : bool := failbit isr.

(** Characters up to the first line feed, and what follows it. *)
Fixpoint split_line (s : str) : option (str * str) :=
  match s with
  | [] => None
  | c :: t =>
      if Ascii.eqb c nl then Some ([], t)
      else match split_line t with
           | Some (line, t') => Some (c :: line, t')
           | None => None
           end
  end.

(** [std::getline(isr, buff)]. A stream that is not good only gets
    [failbit]; otherwise [buff] is replaced by the characters before the
    line feed, or by all that is left, which sets [eofbit], and
    [failbit] too when nothing was left. *)
Definition getline (isr : istream) (buff : str) : istream * str :=
  if eofbit isr || failbit isr then (mkIstream (rest isr) (eofbit isr) true, buff)
  else
    match split_line (rest isr) with
    | Some (line, t) => (mkIstream t false false, line)
    | None => (mkIstream [] true (length (rest isr) =? 0), rest isr)
    end.

Definition add_if_possible (key value : str) (m : ConfigOptions) : outcome :=
  match find key m with
  | None => Threw (ConfigOptionsLoadException (msg_unexpected_key key)) m
  | Some None => Undefined
  | Some (Some o) =>
      match parse_value_from_str value o with
      | inl e => Threw e m
      | inr o' => Done (store key o' m)
      end
  end.

(** The test at the head of the loop body. *)
Definition skipped (buff : str) : bool :=
  Ascii.eqb (at_ buff 0) hash || Ascii.eqb (at_ buff 0) nul
  || Ascii.eqb (at_ buff 0) nl || Ascii.eqb (at_ buff 0) cr.

(** "Remove all spaces before and after a double quote". *)
Definition strip_spaces (buff : str) : str :=
  let end_idx :=
    match find_first_of buff dq with Some i => i | None => length buff end in
  let buff := erase_remove 0 end_idx sp buff in
  let start_idx :=
    match find_last_of buff dq with Some i => i | None => 0 end in
  erase_remove start_idx (length buff) sp buff.

Definition msg_no_key (linenum : Z) : str :=
  lit "Parse error at line " ++ digits linenum ++
  lit ": No key found (<key> = <value> expected)".

Definition msg_config_file_error (key : str) (line : Z) (ex_what : str) : str :=
  lit "Config file error for key <" ++ key ++ lit "> (Line " ++ digits line ++
  lit "): " ++ ex_what.

(** The [while] loop of [load(std::istream&)]. [None]: out of fuel. *)
Fixpoint load_loop (fuel : nat) (isr : istream) (buff : str) (linenum : Z)
    (m : ConfigOptions) : option outcome :=
  match fuel with
  | O => None
  | S fuel' =>
      if negb (eof isr) || negb (fail isr) then
        if skipped buff then
          let '(isr', buff') := getline isr buff in
          load_loop fuel' isr' buff' (uint (linenum + 1)) m
        else
          let buff := strip_spaces buff in
          match find_first_of buff eqc with
          | None | Some O =>
              Some (Threw (ConfigOptionsLoadException (msg_no_key linenum)) m)
          | Some eq_idx =>
              let key := substr buff 0 eq_idx in
              let value := substr buff (eq_idx + 1) (length buff) in
              match add_if_possible key value m with
              | Threw (StringParseException ex_what) m' =>
                  Some (Threw (StringParseException
                                 (msg_config_file_error key (uint (linenum - 1)) ex_what))
                              m')
              | Threw e m' => Some (Threw e m')
              | Undefined => Some Undefined
              | Done m' =>
                  let '(isr', buff') := getline isr buff in
                  load_loop fuel' isr' buff' (uint (linenum + 1)) m'
              end
          end
      else Some (Done m)
  end.

(** [load(std::istream&)]. *)
Definition load_stream (isr : istream) (m : ConfigOptions) : option outcome :=
  if fail isr then Some (Threw (ConfigOptionsLoadException (lit "IO Error.")) m)
  else
    let '(isr', buff) := getline isr [] in
    load_loop (length (rest isr) + 2) isr' buff 0%Z m.

(** [load(std::string&)]: an [std::istringstream] over the string. *)
Definition load_string (_str : str) (m : ConfigOptions) : option outcome :=
  load_stream (mkIstream _str false false) m.

(** [++it], [idx] times from [it]; [None]: the end iterator is
    incremented. *)
Fixpoint advance (idx : nat) (it : ConfigOptions) : option ConfigOptions :=
  match idx with
  | O => Some it
  | S idx' =>
      match it with
      | [] => None
      | _ :: it' => advance idx' it'
      end
  end.

(** [option_by_index(idx)]; [None]: undefined ([idx] beyond [size()]). *)
Definition option_by_index (idx : nat) (m : ConfigOptions) : option ptr :=
  match advance idx m with
  | None => None
  | Some [] => Some nullptr
  | Some ((_, second) :: _) => Some second
  end.

End incfg.

Import incfg.

Unset Implicit Arguments.

(** * Registries and definitions the properties are stated with *)

(** The registry after the option objects [opts] were constructed, in
    this order. The records can hold any current value and flag. *)
Definition register (opts : list Option) : ConfigOptions :=
  fold_left (fun m o => add_option o m) opts [].

(** ** The options of [test.cpp]

    [opt2] is a [double] and has no counterpart here. *)

Definition opt1 : Option := Option_new (lit "opt1") (lit "option 1") (VInt 10).
Definition opt3 : Option :=
  Option_new (lit "opt3") (lit "option 3") (VString (lit "opt3!")).
Definition opt4 : Option :=
  Option_new (lit "opt4") (lit "boolean true option") (VBool true).
Definition opt5 : Option :=
  Option_new (lit "opt5") (lit "boolean false option") (VBool false).

(** The registry once the static option objects are constructed. *)
Definition registry0 : ConfigOptions := register [opt1; opt3; opt4; opt5].

(** A string option for the example of the quoted value. *)
Definition opt : Option := Option_new (lit "opt") (lit "a string option") (VString []).

(** The options of [test.cpp] after the assignments of the scenario
    "Loading a self-generated config string". *)
Definition registry_changed : ConfigOptions :=
  register [set (VInt 30) opt1; set (VString (lit "test")) opt3;
            set (VBool false) opt4; set (VBool true) opt5].

(** A string option holding two lines. *)
Definition registry_two_lines : ConfigOptions :=
  register [set (VString (lit "a" ++ nl :: lit "b")) opt3].

(** ** Assignments, lines and conditions *)

(** A call of [set] or of [parse_value_from_str] on one option. *)
Inductive assignment : Type :=
| Set_ (new_value : value)
| Parse (s : str).

(** A caller that catches the exception of a failed parse goes on with
    the option as it was. *)
Definition assign (a : assignment) (o : Option) : Option :=
  match a with
  | Set_ v => set v o
  | Parse s =>
      match parse_value_from_str s o with
      | inr o' => o'
      | inl _ => o
      end
  end.

(** The assignments of [l], first to last. *)
Definition assign_all (l : list assignment) (o : Option) : Option :=
  fold_left (fun o a => assign a o) l o.

(** The value an assignment gives to [o], if it gives one. *)
Definition assigned (a : assignment) (o : Option) : option value :=
  match a with
  | Set_ v => Some v
  | Parse s =>
      match from_string_helper s (value_ o) with
      | inr v => Some v
      | inl _ => None
      end
  end.

(** The keys in iteration order. *)
Definition keys (m : ConfigOptions) : list str := map fst m.

(** A text as its lines, each closed by a line feed. *)
Definition unlines (ls : list str) : str := flat_map (fun l => l ++ [nl]) ls.

(** The lines of one entry in the words of the specification; [bare] is
    the second comment line. *)
Definition entry_lines (bare : str) (k : str) (o : Option) : list str :=
  match description o with
  | [] => []
  | _ :: _ => [lit "# " ++ description o; bare]
  end ++
  [(if is_default o then lit "#" else []) ++ k ++ lit "=" ++ to_string_helper (get_value o);
   []].

(** The lines of all entries, in iteration order. *)
Definition config_lines (bare : str) (m : ConfigOptions) : list str :=
  flat_map (fun kp => match snd kp with
                      | Some o => entry_lines bare (fst kp) o
                      | None => []
                      end) m.

(** The entries of a registry are registered objects under their names. *)
Definition registered (opts : list Option) (kp : str * ptr) : Prop :=
  exists o, snd kp = Some o /\ name o = fst kp /\ In o opts.

(** The stripping in the words of the specification: the segment before
    the first double quote and the segment after the last one lose their
    spaces, what lies from the first to the last quote is kept; without
    a quote the whole line loses its spaces. *)
Definition spec_strip_spaces (line : str) : str :=
  match find_first_of line dq, find_last_of line dq with
  | Some i, Some j =>
      remove sp (firstn i line) ++ firstn (S j - i) (skipn i line)
        ++ remove sp (skipn (S j) line)
  | _, _ => remove sp line
  end.

(** One step of [digits_value]. *)
Definition digit_step (a : Z) (c : ascii) : Z := (10 * a + digit_val c)%Z.

(** An [int] value is in the range of [int]. *)
Definition value_in_range (v : value) : bool :=
  match v with VInt z => in_int z | _ => true end.

(** [c] does not occur in [s]. *)
Definition no_char (c : ascii) (s : str) : bool :=
  forallb (fun x => negb (Ascii.eqb x c)) s.

(** A key that survives a line of the text format: not empty, not
    starting like a skipped line, and free of spaces, quotes, [=] and
    line feeds. The names [INCFG_REQUIRE] accepts are of this kind. *)
Definition key_ok (k : str) : bool :=
  negb (skipped k) && no_char sp k && no_char dq k && no_char eqc k && no_char nl k.

(** A value whose text is one line and is read back. *)
Definition value_ok (v : value) : bool :=
  match v with
  | VInt z => in_int z
  | VBool _ => true
  | VString s => no_char nl s
  end.

(** An entry that is not null, with a key, a description and a value
    that fit the text format. *)
Definition entry_ok (kp : str * ptr) : bool :=
  match snd kp with
  | Some o => key_ok (fst kp) && no_char nl (description o) && value_ok (value_ o)
  | None => false
  end.

(** Each key is smaller than the next. *)
Fixpoint increasing (ks : list str) : bool :=
  match ks with
  | k1 :: ((k2 :: _) as t) =>
      match compare k1 k2 with Lt => increasing t | _ => false end
  | _ => true
  end.

(** The registries the round trip is stated for: a map (increasing
    keys) without null pointers, keys as above, and no line feed in a
    description or in a string value. *)
Definition reloadable (m : ConfigOptions) : bool :=
  increasing (keys m) && forallb entry_ok m.

(** A line that the loop of [load] passes without changing [m]. *)
Definition inert (m : ConfigOptions) (l : str) : Prop :=
  ~ In nl l /\
  (skipped l = true \/
   exists i,
     find_first_of (strip_spaces l) eqc = Some (S i) /\
     add_if_possible (substr (strip_spaces l) 0 (S i))
                     (substr (strip_spaces l) (S i + 1) (length (strip_spaces l))) m
       = Done m).

(** Iterations the loop can still make from a stream state. *)
Definition budget (isr : istream) : nat :=
  if eofbit isr then (if failbit isr then 1 else 2) else length (rest isr) + 2.

(** ** Definitions for the further properties *)

(** The first object of [opts] named [k]. *)
Definition first_named (k : str) (opts : list Option) : option Option :=
  List.find (fun o => str_eqb k (name o)) opts.

(** Two values of one [TYPE]. *)
Definition same_type (a b : value) : bool :=
  match a, b with
  | VInt _, VInt _ => true
  | VBool _, VBool _ => true
  | VString _, VString _ => true
  | _, _ => false
  end.





(** No entry is the null pointer. *)
Definition null_free (m : ConfigOptions) : bool :=
  forallb (fun e => match snd e with Some _ => true | None => false end) m.

(** The lines of a text: the runs of characters between line feeds; a
    last run without line feed counts when it is not empty. *)
Fixpoint lines (s : str) : list str :=
  match s with
  | [] => []
  | c :: t =>
      if Ascii.eqb c nl then [] :: lines t
      else match lines t with
           | [] => [[c]]
           | l :: ls => (c :: l) :: ls
           end
  end.

(** What the body of the loop of [load(std::istream&)] does with one
    line when [linenum] lines came before it. *)
Definition load_line (buff : str) (linenum : Z) (m : ConfigOptions) : outcome :=
  if skipped buff then Done m
  else
    let buff := strip_spaces buff in
    match find_first_of buff eqc with
    | None | Some O => Threw (ConfigOptionsLoadException (msg_no_key linenum)) m
    | Some eq_idx =>
        let key := substr buff 0 eq_idx in
        let value := substr buff (eq_idx + 1) (length buff) in
        match add_if_possible key value m with
        | Threw (StringParseException ex_what) m' =>
            Threw (StringParseException
                     (msg_config_file_error key (uint (linenum - 1)) ex_what)) m'
        | o => o
        end
    end.

(** Lines loaded one after the other, up to the first that throws. *)
Fixpoint load_lines (ls : list str) (linenum : Z) (m : ConfigOptions) : outcome :=
  match ls with
  | [] => Done m
  | l :: ls' =>
      match load_line l linenum m with
      | Done m' => load_lines ls' (uint (linenum + 1)) m'
      | o => o
      end
  end.

(** What loading the line of entry [e] makes of the entry [e0] of the
    same key: a value that is not default is assigned. *)
Definition reload_entry (e e0 : str * ptr) : str * ptr :=
  (fst e0,
   match snd e, snd e0 with
   | Some o, Some o0 => Some (if is_default o then o0 else set (value_ o) o0)
   | _, p0 => p0
   end).

Fixpoint overlay (m m0 : ConfigOptions) : ConfigOptions :=
  match m, m0 with
  | e :: m', e0 :: m0' => reload_entry e e0 :: overlay m' m0'
  | _, _ => m0
  end.

(** [m0] has the keys of [m], with options of the same types. *)
Fixpoint compatible (m m0 : ConfigOptions) : bool :=
  match m, m0 with
  | [], [] => true
  | e :: m', e0 :: m0' =>
      str_eqb (fst e) (fst e0)
      && match snd e, snd e0 with
         | Some o, Some o0 => same_type (value_ o) (value_ o0)
         | _, _ => false
         end
      && compatible m' m0'
  | _, _ => false
  end.

(** Every option is marked default, and no key, description or value
    holds a line feed. *)
Definition all_default (m : ConfigOptions) : bool :=
  forallb (fun e => match snd e with
                    | Some o => is_default o && no_char nl (fst e)
                                && no_char nl (description o) && value_ok (value_ o)
                    | None => false
                    end) m.

(** The arguments after the program name, consumed from the left: one
    token for a boolean key, two for any other. *)
Fixpoint load_tokens (args : list str) (m : ConfigOptions) : outcome :=
  match args with
  | [] => Done m
  | key :: args' =>
      if length key <? 3
      then Threw (ConfigOptionsLoadException (msg_invalid_option key)) m
      else if negb (Ascii.eqb (at_ key 0) dash) && negb (Ascii.eqb (at_ key 1) dash)
      then Threw (ConfigOptionsLoadException (msg_invalid_option key)) m
      else
        let key := substr key 2 (length key - 1) in
        match find key m with
        | None => Threw (ConfigOptionsLoadException (msg_unexpected_key key)) m
        | Some None => Undefined
        | Some (Some o) =>
            if is_bool o then
              match parse_value_from_str (lit "true") o with
              | inl e => Threw e m
              | inr o' => load_tokens args' (store key o' m)
              end
            else
              match args' with
              | [] => Undefined
              | value :: args'' =>
                  if (1 <? length value) && Ascii.eqb (at_ value 0) dash
                     && Ascii.eqb (at_ value 1) dash
                  then Threw (ConfigOptionsLoadException
                                (msg_invalid_value value key)) m
                  else
                    match parse_value_from_str value o with
                    | inl e => Threw e m
                    | inr o' => load_tokens args'' (store key o' m)
                    end
              end
        end
  end.

(** The test on a value token: it looks like a key. *)
Definition looks_like_key (value : str) : bool :=
  (1 <? length value) && Ascii.eqb (at_ value 0) dash && Ascii.eqb (at_ value 1) dash.

(** * Properties *)

(** ** Strings *)

Lemma compare_refl (a : str) : compare a a = Eq.
Proof.
  induction a as [|x a IH]; simpl; [reflexivity|].
  unfold Ascii.compare. now rewrite N.compare_refl.
Qed.

Lemma compare_eq (a b : str) : compare a b = Eq -> a = b.
Proof.
  revert b. induction a as [|x a IH]; intros [|y b]; simpl; try discriminate; auto.
  destruct (Ascii.compare x y) eqn:E; try discriminate.
  intros H. apply Ascii.compare_eq_iff in E. subst. f_equal. auto.
Qed.

Lemma str_eqb_eq (a b : str) : str_eqb a b = true <-> a = b.
Proof.
  unfold str_eqb. split.
  - destruct (compare a b) eqn:E; try discriminate. intros _. now apply compare_eq.
  - intros ->. now rewrite compare_refl.
Qed.

Lemma str_eqb_refl (a : str) : str_eqb a a = true.
Proof. now apply str_eqb_eq. Qed.

Lemma str_eqb_neq (a b : str) : str_eqb a b = false <-> a <> b.
Proof.
  rewrite <- str_eqb_eq. destruct (str_eqb a b); split; congruence.
Qed.

(** ** Boolean codec *)

(** C8. The boolean codec writes [true] as "true" and [false] as
    "false"; it reads "true" as [true], "false" as [false], and throws a
    [StringParseException] for every other string, among them "30" and
    "True". *)
Theorem bool_codec_strict :
  to_string_helper_bool true = lit "true" /\
  to_string_helper_bool false = lit "false" /\
  (forall s : str,
      (from_string_helper_bool s = inr true <-> s = lit "true") /\
      (from_string_helper_bool s = inr false <-> s = lit "false") /\
      (s <> lit "true" -> s <> lit "false" ->
       exists w, from_string_helper_bool s = inl (StringParseException w))) /\
  (exists w, from_string_helper_bool (lit "30") = inl (StringParseException w)) /\
  (exists w, from_string_helper_bool (lit "True") = inl (StringParseException w)).
Proof.
  split; [reflexivity|]. split; [reflexivity|]. split.
  - intros s. unfold from_string_helper_bool.
    destruct (str_eqb s (lit "true")) eqn:Et; cbn [negb andb].
    + apply str_eqb_eq in Et. subst s.
      split; [tauto|]. split; [|intros H; now destruct H].
      split; intros H; vm_compute in H; discriminate H.
    + apply str_eqb_neq in Et.
      destruct (str_eqb s (lit "false")) eqn:Ef; cbn [negb andb].
      * apply str_eqb_eq in Ef.
        split; [split; [intros H; discriminate H | congruence]|].
        split; [tauto | congruence].
      * apply str_eqb_neq in Ef.
        split; [split; [intros H; discriminate H | congruence]|].
        split; [split; [intros H; discriminate H | congruence]|].
        intros _ _. eexists. reflexivity.
  - split; eexists; reflexivity.
Qed.

(** ** The map of options *)

Lemma find_insert_same (k : str) (p : ptr) (m : ConfigOptions) :
  find k (insert k p m) = Some p.
Proof.
  induction m as [|[k' p'] m IH]; simpl.
  - now rewrite str_eqb_refl.
  - destruct (compare k k') eqn:E; simpl.
    + now rewrite str_eqb_refl.
    + now rewrite str_eqb_refl.
    + unfold str_eqb. now rewrite E.
Qed.

Lemma find_insert_other (k k0 : str) (p : ptr) (m : ConfigOptions) :
  k <> k0 -> find k (insert k0 p m) = find k m.
Proof.
  intros Hne. apply str_eqb_neq in Hne.
  induction m as [|[k' p'] m IH]; simpl.
  - now rewrite Hne.
  - destruct (compare k0 k') eqn:E; simpl.
    + apply compare_eq in E. subst k'. now rewrite Hne.
    + now rewrite Hne.
    + now rewrite IH.
Qed.

Lemma length_insert_absent (k : str) (p : ptr) (m : ConfigOptions) :
  find k m = None -> length (insert k p m) = S (length m).
Proof.
  induction m as [|[k' p'] m IH]; simpl; [reflexivity|].
  unfold str_eqb. destruct (compare k k') eqn:E; try discriminate; simpl; auto.
Qed.

(** C10. For a name that is not a key of the map, [get] returns the
    null pointer and adds the name as a key mapped to the null pointer:
    the name is found afterwards, [size()] is one more, and every other
    key is found as before. *)
Theorem get_absent_inserts_null (_name : str) (m : ConfigOptions) :
  find _name m = None ->
  fst (get _name m) = nullptr /\
  find _name (snd (get _name m)) = Some nullptr /\
  size (snd (get _name m)) = S (size m) /\
  (forall k, k <> _name -> find k (snd (get _name m)) = find k m).
Proof.
  intros Habs. unfold get, subscript. rewrite Habs. simpl.
  split; [reflexivity|]. split; [apply find_insert_same|].
  split; [now apply length_insert_absent|].
  intros k Hk. now apply find_insert_other.
Qed.

Lemma get_absent_inserts_null_witness :
  fst (get (lit "opt9") registry0) = nullptr /\
  find (lit "opt9") (snd (get (lit "opt9") registry0)) = Some nullptr /\
  size (snd (get (lit "opt9") registry0)) = S (size registry0) /\
  (forall k, k <> lit "opt9" ->
             find k (snd (get (lit "opt9") registry0)) = find k registry0).
Proof. apply (@get_absent_inserts_null (lit "opt9") registry0). reflexivity. Defined.

(** C7. [get] has no failure: for the name "opt9", which was never
    registered, it returns the null pointer, and the map it leaves has
    the name as a key; the loaders, which test [find] first, throw
    "Unexpected key" for the same name. *)
Theorem get_unknown_key_does_not_fail :
  find (lit "opt9") registry0 = None /\
  get (lit "opt9") registry0 = (nullptr, insert (lit "opt9") nullptr registry0) /\
  to_config_string (snd (get (lit "opt9") registry0)) = None /\
  add_if_possible (lit "opt9") (lit "1") registry0 =
    Threw (ConfigOptionsLoadException (msg_unexpected_key (lit "opt9"))) registry0.
Proof. repeat split. Qed.

(** ** The default flag *)

Lemma value_eqb_eq (a b : value) : value_eqb a b = true <-> a = b.
Proof.
  destruct a, b; simpl; try (split; [discriminate | congruence]).
  - rewrite Z.eqb_eq. split; congruence.
  - rewrite Bool.eqb_true_iff. split; congruence.
  - rewrite str_eqb_eq. split; congruence.
Qed.

Lemma assign_spec (a : assignment) (o : Option) :
  assign a o = match assigned a o with Some v => set v o | None => o end.
Proof.
  destruct a; simpl; [reflexivity|].
  unfold parse_value_from_str. now destruct (from_string_helper s (value_ o)).
Qed.

(** While the flag is set the value is the one the option was
    constructed with. *)
Lemma assign_all_default_value (v0 : value) (l : list assignment) (o : Option) :
  (is_def o = true -> value_ o = v0) ->
  is_def (assign_all l o) = true -> value_ (assign_all l o) = v0.
Proof.
  revert o. induction l as [|a l IH]; intros o Hinv; simpl; [exact Hinv|].
  apply IH. rewrite assign_spec. destruct (assigned a o) as [v|]; [|exact Hinv].
  simpl. intros H. apply andb_true_iff in H. destruct H as [Hd He].
  apply value_eqb_eq in He. rewrite He. auto.
Qed.

Lemma assign_all_stays_false (l : list assignment) (o : Option) :
  is_def o = false -> is_def (assign_all l o) = false.
Proof.
  revert o. induction l as [|a l IH]; intros o Hf; simpl; [exact Hf|].
  apply IH. rewrite assign_spec. destruct (assigned a o); [|exact Hf].
  simpl. now rewrite Hf.
Qed.

(** C4. Take an option constructed with the default [v0] and any
    sequence of [set] and [parse_value_from_str] calls. If one call of
    the sequence assigns a value [v] different from [v0], then
    [is_default()] is false after the whole sequence, whatever the calls
    after it are, and also when one more call assigns [v0] again. *)
Theorem is_default_sticky (_name _description : str) (v0 v : value)
    (before after : list assignment) (a : assignment) :
  assigned a (assign_all before (Option_new _name _description v0)) = Some v ->
  v <> v0 ->
  is_default (assign_all (before ++ a :: after) (Option_new _name _description v0))
    = false /\
  is_default (assign_all (before ++ a :: after ++ [Set_ v0])
                         (Option_new _name _description v0)) = false.
Proof.
  intros Ha Hne.
  assert (Hstep : is_def (assign a (assign_all before (Option_new _name _description v0)))
                  = false).
  { rewrite assign_spec, Ha. simpl.
    destruct (is_def (assign_all before (Option_new _name _description v0))) eqn:Hd;
      [|reflexivity].
    apply (@assign_all_default_value v0) in Hd; [|reflexivity].
    rewrite Hd. simpl. destruct (value_eqb v v0) eqn:E; [|reflexivity].
    apply value_eqb_eq in E. contradiction. }
  unfold is_default, assign_all in *.
  split.
  - rewrite fold_left_app. simpl. now apply assign_all_stays_false.
  - rewrite fold_left_app. simpl. now apply assign_all_stays_false.
Qed.

Lemma is_default_sticky_witness :
  is_default (assign_all ([Parse (lit "10")] ++ Set_ (VInt 30) :: [Parse (lit "x"); Set_ (VInt 10)])
                         (Option_new (lit "opt1") (lit "option 1") (VInt 10))) = false /\
  is_default (assign_all ([Parse (lit "10")] ++ Set_ (VInt 30)
                            :: [Parse (lit "x"); Set_ (VInt 10)] ++ [Set_ (VInt 10)])
                         (Option_new (lit "opt1") (lit "option 1") (VInt 10))) = false.
Proof.
  apply (@is_default_sticky (lit "opt1") (lit "option 1") (VInt 10) (VInt 30)
           [Parse (lit "10")] [Parse (lit "x"); Set_ (VInt 10)] (Set_ (VInt 30))).
  - reflexivity.
  - discriminate.
Defined.

(** ** The command-line loader *)

Lemma parse_value_from_str_throws (s : str) (o : Option) (e : exception) :
  parse_value_from_str s o = inl e -> exists w, e = StringParseException w.
Proof.
  unfold parse_value_from_str, from_string_helper.
  destruct (value_ o).
  - unfold from_string_helper_generic. destruct (get_int s); [discriminate|].
    intros H. injection H as <-. eexists. reflexivity.
  - unfold from_string_helper_bool.
    destruct (negb (str_eqb s (lit "true")) && negb (str_eqb s (lit "false")));
      [|discriminate].
    intros H. injection H as <-. eexists. reflexivity.
  - unfold from_string_helper_string.
    destruct (length s <? 2); [discriminate|].
    destruct (Ascii.eqb (at_ s 0) dq && Ascii.eqb (at_ s (length s - 1)) dq);
      discriminate.
Qed.

Ltac thrown_other H :=
  let H1 := fresh in let H2 := fresh in let Hc := fresh in
  injection H as H1 H2; subst;
  unfold msg_invalid_option, msg_unexpected_key, msg_invalid_value, msg_value_expected;
  simpl; intros Hc; discriminate Hc.

(** The test [idx==argc] sits inside the loop, where [idx < argc]: the
    exception behind it is never thrown. *)
Lemma value_expected_never_thrown (fuel argc : nat) (argv : list str) :
  forall (idx : nat) (m m' : ConfigOptions) (e : exception) (k : str),
    load_args_loop fuel argc argv idx m = Some (Threw e m') ->
    e <> ConfigOptionsLoadException (msg_value_expected k).
Proof.
  induction fuel as [|fuel IH]; intros idx m m' e k; cbn [load_args_loop]; [discriminate|].
  destruct (idx <? argc) eqn:Hlt; [|discriminate].
  destruct (nth_error argv idx) as [key|]; [|discriminate].
  destruct (length key <? 3); [intros H; thrown_other H|].
  destruct (negb (Ascii.eqb (at_ key 0) dash) && negb (Ascii.eqb (at_ key 1) dash));
    [intros H; thrown_other H|].
  destruct (find (substr key 2 (length key - 1)) m) as [[o|]|];
    [|discriminate|intros H; thrown_other H].
  destruct (is_bool o).
  - destruct (parse_value_from_str (lit "true") o) as [e'|o'] eqn:Hp; [|apply IH].
    apply parse_value_from_str_throws in Hp. destruct Hp as [w ->].
    intros H. thrown_other H.
  - destruct (idx =? argc) eqn:Heq.
    { apply Nat.eqb_eq in Heq. apply Nat.ltb_lt in Hlt. lia. }
    destruct (nth_error argv (S idx)) as [v|]; [|discriminate].
    destruct ((1 <? length v) && Ascii.eqb (at_ v 0) dash && Ascii.eqb (at_ v 1) dash)
      eqn:Hv.
    + apply andb_true_iff in Hv. destruct Hv as [Hv _].
      apply andb_true_iff in Hv. destruct Hv as [_ Hv].
      destruct v as [|c v]; [discriminate Hv|].
      unfold at_ in Hv. cbn [nth] in Hv. apply Ascii.eqb_eq in Hv. subst c.
      intros H. thrown_other H.
    + destruct (parse_value_from_str v o) as [e'|o'] eqn:Hp; [|apply IH].
      apply parse_value_from_str_throws in Hp. destruct Hp as [w ->].
      intros H. thrown_other H.
Qed.

(** When the loop comes to a registered key that takes a value and is
    the last argument, it reads [argv[argc]]. *)
Lemma key_last_undefined (fuel : nat) (argv : list str) (k : str) (o : Option)
    (m : ConfigOptions) :
  nth_error argv (length argv - 1) = Some (dash :: dash :: k) ->
  k <> [] -> find k m = Some (Some o) -> is_bool o = false ->
  load_args_loop (S fuel) (length argv) argv (length argv - 1) m = Some Undefined.
Proof.
  intros Hkey Hk Hf Hb.
  assert (Hlen : length argv - 1 < length argv).
  { destruct argv; [discriminate Hkey | simpl; lia]. }
  cbn [load_args_loop].
  replace (length argv - 1 <? length argv) with true
    by (symmetry; now apply Nat.ltb_lt).
  rewrite Hkey. destruct k as [|c k]; [contradiction|].
  cbn [length at_ nth]. rewrite Ascii.eqb_refl. cbn [negb andb Nat.ltb Nat.leb].
  unfold substr. cbn [skipn Nat.sub].
  rewrite firstn_all2 by (simpl; lia).
  rewrite Hf, Hb.
  replace (length argv - 1 =? length argv) with false
    by (symmetry; apply Nat.eqb_neq; lia).
  replace (nth_error argv (S (length argv - 1))) with (@None str);
    [reflexivity|].
  symmetry. apply nth_error_None. lia.
Qed.

(** C2. With the [int] option [opt1] registered, [--opt1] as the last
    argument does not make [load(argc, argv)] throw "A value is
    expected ...": the loader reads [argv[argc]], and no argument list
    at all gets that exception. A value that begins with two dashes is
    refused with "... is an invalid value for key ...". *)
Theorem load_argv_key_last_reads_past_end :
  load_argv 2 [lit "exename"; lit "--opt1"] registry0 = Some Undefined /\
  (forall argc argv m e m' k,
      load_argv argc argv m = Some (Threw e m') ->
      e <> ConfigOptionsLoadException (msg_value_expected k)) /\
  load_argv 3 [lit "exename"; lit "--opt1"; lit "--opt2"] registry0 =
    Some (Threw (ConfigOptionsLoadException
                   (msg_invalid_value (lit "--opt2") (lit "opt1"))) registry0).
Proof.
  split; [reflexivity|]. split; [|reflexivity].
  intros argc argv m e m' k. unfold load_argv.
  destruct (argc <? 2); [discriminate|]. apply value_expected_never_thrown.
Qed.

(** C3. A token of three or more characters of which only one of the
    first two is a dash is not refused: ["-xopt5"] sets the boolean
    option [opt5], and ["x-opt1"] followed by ["4"] sets [opt1] to 4.
    Tokens with no dash among the first two characters, or shorter than
    three characters, are refused. *)
Theorem load_argv_accepts_one_dash :
  load_argv 2 [lit "exename"; lit "-xopt5"] registry0 =
    Some (Done (store (lit "opt5") (set (VBool true) opt5) registry0)) /\
  load_argv 3 [lit "exename"; lit "x-opt1"; lit "4"] registry0 =
    Some (Done (store (lit "opt1") (set (VInt 4) opt1) registry0)) /\
  load_argv 2 [lit "exename"; lit "xyopt5"] registry0 =
    Some (Threw (ConfigOptionsLoadException (msg_invalid_option (lit "xyopt5")))
                registry0) /\
  load_argv 2 [lit "exename"; lit "--"] registry0 =
    Some (Threw (ConfigOptionsLoadException (msg_invalid_option (lit "--")))
                registry0).
Proof. repeat split. Qed.

(** ** Line numbers in the errors of the text loader *)

(** C6. The line number in the two error messages is not the 1-based
    number of the line: a line without [=] is reported one too low
    (line 0 for the first line), and a value the codec refuses is
    reported two too low, which for the first line is 4294967295 in
    [unsigned int] arithmetic. The key is named in the second message. *)
Theorem load_error_line_numbers :
  load_string (lit "novalue" ++ [nl]) registry0 =
    Some (Threw (ConfigOptionsLoadException
                   (lit "Parse error at line 0: No key found (<key> = <value> expected)"))
                registry0) /\
  load_string (lit "opt1=aaa30" ++ [nl]) registry0 =
    Some (Threw (StringParseException
                   (lit "Config file error for key <opt1> (Line 4294967295): Unable to parse aaa30 to its defined type"))
                registry0) /\
  load_string (lit "# comment" ++ [nl] ++ lit "opt4=30" ++ [nl]) registry0 =
    Some (Threw (StringParseException
                   (lit "Config file error for key <opt4> (Line 0): Unable to parse 30 to "
                    ++ dq :: lit "true" ++ dq :: lit " or " ++ dq :: lit "false" ++ [dq]))
                registry0).
Proof. repeat split. Qed.

(** ** Order of the keys *)

Lemma ascii_compare_lt_trans (x y z : ascii) :
  Ascii.compare x y = Lt -> Ascii.compare y z = Lt -> Ascii.compare x z = Lt.
Proof.
  unfold Ascii.compare. rewrite !N.compare_lt_iff. apply N.lt_trans.
Qed.

Lemma compare_antisym (a b : str) : compare b a = CompOpp (compare a b).
Proof.
  revert b. induction a as [|x a IH]; intros [|y b]; simpl; try reflexivity.
  rewrite (Ascii.compare_antisym x y).
  destruct (Ascii.compare y x); simpl; auto.
Qed.

Lemma str_lt_trans (a b c : str) : str_lt a b -> str_lt b c -> str_lt a c.
Proof.
  unfold str_lt. revert b c.
  induction a as [|x a IH]; intros [|y b] [|z c]; simpl; try discriminate; auto.
  destruct (Ascii.compare x y) eqn:Exy; try discriminate;
    destruct (Ascii.compare y z) eqn:Eyz; try discriminate; intros H1 H2.
  - apply Ascii.compare_eq_iff in Exy, Eyz. subst.
    assert (E : Ascii.compare z z = Eq)
      by (unfold Ascii.compare; apply N.compare_refl).
    rewrite E. eauto.
  - apply Ascii.compare_eq_iff in Exy. subst. now rewrite Eyz.
  - apply Ascii.compare_eq_iff in Eyz. subst. now rewrite Exy.
  - now rewrite (ascii_compare_lt_trans _ _ _ Exy Eyz).
Qed.

Lemma str_lt_irrefl (a : str) : ~ str_lt a a.
Proof. unfold str_lt. rewrite compare_refl. discriminate. Qed.

Lemma insert_head (k : str) (p : ptr) (m : ConfigOptions) (k0 : str) :
  str_lt k0 k -> HdRel str_lt k0 (keys m) -> HdRel str_lt k0 (keys (insert k p m)).
Proof.
  intros Hk Hm. destruct m as [|[k' p'] m]; simpl.
  - now constructor.
  - destruct (compare k k'); simpl; constructor; auto.
    now inversion Hm.
Qed.

Lemma insert_sorted (k : str) (p : ptr) (m : ConfigOptions) :
  Sorted str_lt (keys m) -> Sorted str_lt (keys (insert k p m)).
Proof.
  induction m as [|[k' p'] m IH]; simpl; intros Hs.
  - repeat constructor.
  - inversion Hs as [|? ? Hs' Hhd]; subst.
    destruct (compare k k') eqn:E; simpl.
    + apply compare_eq in E. subst k'. now constructor.
    + constructor; [exact Hs|]. now constructor.
    + constructor; [now apply IH|].
      apply insert_head; [|exact Hhd].
      unfold str_lt. now rewrite compare_antisym, E.
Qed.

Lemma add_option_sorted (o : Option) (m : ConfigOptions) :
  Sorted str_lt (keys m) -> Sorted str_lt (keys (add_option o m)).
Proof.
  intros Hs. unfold add_option. destruct (find (name o) m); [exact Hs|].
  now apply insert_sorted.
Qed.

Lemma keys_strongly_sorted (m : ConfigOptions) :
  Sorted str_lt (keys m) -> StronglySorted str_lt (keys m).
Proof.
  apply Sorted_StronglySorted. intros a b c. apply str_lt_trans.
Qed.

(** An entry of a map with increasing keys is the one [find] returns. *)
Lemma find_in_sorted (m : ConfigOptions) (k : str) (p : ptr) :
  Sorted str_lt (keys m) -> In (k, p) m -> find k m = Some p.
Proof.
  intros Hs. apply keys_strongly_sorted in Hs.
  induction m as [|[k' p'] m IH]; simpl; [contradiction|].
  inversion Hs as [|? ? Hs' Hall]; subst.
  intros [Heq|Hin].
  - injection Heq as -> ->. now rewrite str_eqb_refl.
  - destruct (str_eqb k k') eqn:E; [|auto].
    apply str_eqb_eq in E. subst k'.
    rewrite Forall_forall in Hall.
    exfalso. apply (@str_lt_irrefl k). apply Hall.
    change k with (fst (k, p)). now apply in_map.
Qed.

(** Every entry an [insert] leaves is the new one or an old one. *)
Lemma in_insert (k : str) (p : ptr) (m : ConfigOptions) (e : str * ptr) :
  In e (insert k p m) -> e = (k, p) \/ In e m.
Proof.
  induction m as [|[k' p'] m IH]; simpl.
  - intuition auto.
  - destruct (compare k k'); simpl; intuition auto.
Qed.

(** ** The configuration string *)

Lemma unlines_app (a b : list str) : unlines (a ++ b) = unlines a ++ unlines b.
Proof. unfold unlines. apply flat_map_app. Qed.

Lemma entry_text_lines (k : str) (o : Option) :
  entry_text k o = unlines (entry_lines (lit "# ") k o).
Proof.
  unfold entry_text, entry_lines, get_value_as_str, get_value.
  rewrite unlines_app.
  destruct (description o) as [|c d]; simpl; rewrite <- ?app_assoc; reflexivity.
Qed.

Lemma to_config_string_lines (m : ConfigOptions) :
  Forall (fun kp => snd kp <> nullptr) m ->
  to_config_string m = Some (unlines (config_lines (lit "# ") m)).
Proof.
  induction 1 as [|[k [o|]] m Hnn _ IH]; simpl; [reflexivity| |now destruct Hnn].
  rewrite IH, entry_text_lines, unlines_app. reflexivity.
Qed.

Lemma register_invariant (opts : list Option) :
  Sorted str_lt (keys (register opts)) /\ Forall (registered opts) (register opts).
Proof.
  unfold register.
  assert (H : forall l m,
             incl l opts ->
             Sorted str_lt (keys m) /\ Forall (registered opts) m ->
             Sorted str_lt (keys (fold_left (fun m o => add_option o m) l m)) /\
             Forall (registered opts) (fold_left (fun m o => add_option o m) l m)).
  { induction l as [|o l IH]; intros m Hl [Hs Hr]; simpl; [now split|].
    apply IH.
    - intros x Hx. apply Hl. now right.
    - split; [now apply add_option_sorted|].
      unfold add_option. destruct (find (name o) m); [exact Hr|].
      apply Forall_forall. intros e He. apply in_insert in He.
      destruct He as [->|He].
      + exists o. repeat split. apply Hl. now left.
      + rewrite Forall_forall in Hr. now apply Hr. }
  apply H; [apply incl_refl|]. split; constructor.
Qed.

(** C5, amended. For the registry of any list of registered options,
    [to_config_string()] returns these lines, for each entry in
    increasing order of the keys: when the description is not empty, the
    line "# " followed by the description and the line "# " (a hash and
    one space); then a line made of "#" exactly when [is_default()]
    holds, the key, "=" and the encoded value; then an empty line. Each
    key is the name of its option. *)
Theorem to_config_string_format (opts : list Option) :
  to_config_string (register opts) =
    Some (unlines (config_lines (lit "# ") (register opts))) /\
  StronglySorted str_lt (keys (register opts)) /\
  Forall (registered opts) (register opts).
Proof.
  destruct (register_invariant opts) as [Hs Hr].
  split; [|split; [now apply keys_strongly_sorted | exact Hr]].
  apply to_config_string_lines.
  eapply Forall_impl; [|exact Hr].
  intros kp (o & Ho & _). rewrite Ho. discriminate.
Qed.

(** C5 as stated fails: the second comment line of a described entry
    is "# " and not a bare "#"; and a registry in which [get] has left a
    null pointer has no configuration string. *)
Lemma to_config_string_bare_hash_counterexample :
  to_config_string (register [opt1]) <>
    Some (unlines (config_lines (lit "#") (register [opt1]))) /\
  to_config_string (snd (get (lit "opt9") (register [opt1]))) = None.
Proof. split; [discriminate | reflexivity]. Qed.

(** ** Removal of spaces outside the quotes *)

Lemma firstn_length_app (a b : str) : firstn (length a) (a ++ b) = a.
Proof. induction a as [|x a IH]; simpl; [now destruct b | now rewrite IH]. Qed.

Lemma skipn_length_app (a b : str) : skipn (length a) (a ++ b) = b.
Proof. induction a as [|x a IH]; simpl; auto. Qed.

Lemma find_first_of_absent (s : str) (c : ascii) :
  ~ In c s -> find_first_of s c = None.
Proof.
  induction s as [|x s IH]; simpl; [reflexivity|]. intros Hn.
  destruct (Ascii.eqb x c) eqn:E.
  - apply Ascii.eqb_eq in E. tauto.
  - rewrite IH; tauto.
Qed.

Lemma find_last_of_absent (s : str) (c : ascii) :
  ~ In c s -> find_last_of s c = None.
Proof.
  induction s as [|x s IH]; simpl; [reflexivity|]. intros Hn.
  rewrite IH by tauto.
  destruct (Ascii.eqb x c) eqn:E; [|reflexivity].
  apply Ascii.eqb_eq in E. tauto.
Qed.

Lemma find_first_of_app (pre t : str) (c : ascii) :
  ~ In c pre -> find_first_of (pre ++ c :: t) c = Some (length pre).
Proof.
  induction pre as [|x pre IH]; simpl; intros Hn.
  - now rewrite Ascii.eqb_refl.
  - destruct (Ascii.eqb x c) eqn:E.
    + apply Ascii.eqb_eq in E. tauto.
    + rewrite IH; tauto.
Qed.

Lemma find_last_of_app (u post : str) (c : ascii) :
  ~ In c post -> find_last_of (u ++ c :: post) c = Some (length u).
Proof.
  intros Hn. induction u as [|x u IH]; simpl.
  - rewrite find_last_of_absent by exact Hn. now rewrite Ascii.eqb_refl.
  - now rewrite IH.
Qed.

(** A string with [c] splits at the first and at the last [c]. *)
Lemma split_first (s : str) (c : ascii) :
  In c s -> exists pre t, s = pre ++ c :: t /\ ~ In c pre.
Proof.
  induction s as [|x s IH]; simpl; [contradiction|]. intros Hin.
  destruct (ascii_dec x c) as [->|Hne].
  - exists [], s. simpl. tauto.
  - destruct IH as (pre & t & -> & Hn); [tauto|].
    exists (x :: pre), t. simpl. split; [reflexivity|]. tauto.
Qed.

Lemma split_last (s : str) (c : ascii) :
  In c s -> exists u post, s = u ++ c :: post /\ ~ In c post.
Proof.
  induction s as [|x s IH]; simpl; [contradiction|]. intros Hin.
  destruct (in_dec ascii_dec c s) as [Hs|Hs].
  - destruct (IH Hs) as (u & post & -> & Hn). now exists (x :: u), post.
  - destruct Hin as [->|Hin]; [|contradiction]. now exists [], s.
Qed.

Lemma remove_absent (c : ascii) (s : str) : ~ In c s -> remove c s = s.
Proof.
  induction s as [|x s IH]; simpl; [reflexivity|]. intros Hn.
  destruct (Ascii.eqb x c) eqn:E; simpl.
  - apply Ascii.eqb_eq in E. tauto.
  - rewrite IH; tauto.
Qed.

Lemma remove_not_in (c : ascii) (s : str) : ~ In c (remove c s).
Proof.
  unfold remove. rewrite filter_In. intros [_ H].
  now rewrite Ascii.eqb_refl in H.
Qed.

Lemma remove_keeps_absent (c d : ascii) (s : str) : ~ In d s -> ~ In d (remove c s).
Proof. unfold remove. rewrite filter_In. tauto. Qed.

Lemma erase_remove_prefix (c : ascii) (a b : str) :
  erase_remove 0 (length a) c (a ++ b) = remove c a ++ b.
Proof.
  unfold erase_remove. simpl. rewrite Nat.sub_0_r.
  now rewrite firstn_length_app, skipn_length_app.
Qed.

Lemma erase_remove_suffix (c : ascii) (a b : str) :
  erase_remove (length a) (length (a ++ b)) c (a ++ b) = a ++ remove c b.
Proof.
  unfold erase_remove.
  rewrite firstn_length_app, skipn_length_app, skipn_all, app_nil_r.
  rewrite length_app, Nat.add_comm, Nat.add_sub.
  now rewrite <- (app_nil_r b) at 2; rewrite firstn_length_app.
Qed.

Lemma erase_remove_whole (c : ascii) (s : str) :
  erase_remove 0 (length s) c s = remove c s.
Proof.
  unfold erase_remove. simpl.
  now rewrite Nat.sub_0_r, firstn_all, skipn_all, app_nil_r.
Qed.

(** Both readings on a line without a quote. *)
Lemma strip_spaces_no_quote (line : str) :
  ~ In dq line ->
  strip_spaces line = remove sp line /\ spec_strip_spaces line = remove sp line.
Proof.
  intros Hn. unfold strip_spaces, spec_strip_spaces.
  rewrite (find_first_of_absent _ _ Hn). split; [|reflexivity].
  rewrite erase_remove_whole.
  rewrite find_last_of_absent by (now apply remove_keeps_absent).
  rewrite erase_remove_whole.
  apply remove_absent, remove_not_in.
Qed.

(** Both readings on a line whose first quote follows [pre] and whose
    last quote precedes [post]; [u] is empty when they are one quote and
    begins with the first quote otherwise. *)
Lemma strip_spaces_quoted (pre u post : str) :
  ~ In dq pre -> ~ In dq post -> (u = [] \/ exists w, u = dq :: w) ->
  strip_spaces (pre ++ u ++ dq :: post)
    = remove sp pre ++ u ++ dq :: remove sp post /\
  spec_strip_spaces (pre ++ u ++ dq :: post)
    = remove sp pre ++ u ++ dq :: remove sp post.
Proof.
  intros Hpre Hpost Hu.
  assert (Hfirst : find_first_of (pre ++ u ++ dq :: post) dq = Some (length pre)).
  { destruct Hu as [->|[w ->]]; simpl; now apply find_first_of_app. }
  assert (Hlast : forall x, find_last_of (x ++ u ++ dq :: post) dq
                            = Some (length (x ++ u))).
  { intros x. rewrite app_assoc. now apply find_last_of_app. }
  split.
  - unfold strip_spaces. rewrite Hfirst, erase_remove_prefix, Hlast.
    rewrite (app_assoc (remove sp pre) u), erase_remove_suffix.
    rewrite <- app_assoc. reflexivity.
  - unfold spec_strip_spaces. rewrite Hfirst, Hlast.
    rewrite firstn_length_app, skipn_length_app.
    rewrite length_app.
    replace (S (length pre + length u) - length pre) with (length (u ++ [dq]))
      by (rewrite length_app; cbn [length]; lia).
    replace (S (length pre + length u)) with (length (pre ++ u ++ [dq]))
      by (rewrite !length_app; cbn [length]; lia).
    replace (u ++ dq :: post) with ((u ++ [dq]) ++ post)
      by (now rewrite <- app_assoc).
    rewrite firstn_length_app.
    replace (pre ++ (u ++ [dq]) ++ post) with ((pre ++ u ++ [dq]) ++ post)
      by (now rewrite <- !app_assoc).
    rewrite skipn_length_app. rewrite <- !app_assoc. reflexivity.
Qed.

Lemma strip_spaces_spec (line : str) : strip_spaces line = spec_strip_spaces line.
Proof.
  destruct (in_dec ascii_dec dq line) as [Hin|Hn].
  - destruct (split_first _ _ Hin) as (pre & t & -> & Hpre).
    destruct (@split_last (dq :: t) dq) as (u & post & Ht & Hpost); [now left|].
    rewrite Ht.
    assert (Hu : u = [] \/ exists w, u = dq :: w).
    { destruct u as [|x w]; [now left|]. right. exists w.
      simpl in Ht. now injection Ht as <- _. }
    destruct (strip_spaces_quoted pre u post Hpre Hpost Hu) as [-> ->]. reflexivity.
  - destruct (strip_spaces_no_quote _ Hn) as [-> ->]. reflexivity.
Qed.

(** C9. On every line the loader does not skip, [strip_spaces] removes
    the spaces before the first double quote and after the last one and
    nothing else (all spaces when the line has no quote). Loading the
    line [opt = " test test "] sets the string option [opt] to
    [ test test ], spaces inside the quotes included. *)
Theorem strip_spaces_outside_quotes :
  (forall line : str, strip_spaces line = spec_strip_spaces line) /\
  strip_spaces (lit "opt = " ++ dq :: lit " test test " ++ dq :: lit "  ")
    = lit "opt=" ++ dq :: lit " test test " ++ [dq] /\
  load_string (lit "opt = " ++ dq :: lit " test test " ++ [dq]) (register [opt])
    = Some (Done (register [set (VString (lit " test test ")) opt])).
Proof.
  split; [exact strip_spaces_spec|]. split; reflexivity.
Qed.

(** ** Round trip of the codecs *)

Lemma digit_char_ok (d : Z) :
  (0 <= d < 10)%Z -> is_digit (digit_char d) = true /\ digit_val (digit_char d) = d.
Proof.
  intros H.
  assert (E : d = 0%Z \/ d = 1%Z \/ d = 2%Z \/ d = 3%Z \/ d = 4%Z \/ d = 5%Z
              \/ d = 6%Z \/ d = 7%Z \/ d = 8%Z \/ d = 9%Z) by lia.
  repeat (destruct E as [->|E]; [split; reflexivity|]). subst d. split; reflexivity.
Qed.

(** [digits_aux] puts a non-empty run of digits that reads back as [n]
    in front of [acc]. *)
Lemma digits_aux_spec (fuel : nat) :
  forall (n : Z) (acc : str),
    (0 <= n < 2 ^ Z.of_nat (S fuel))%Z ->
    exists l,
      digits_aux (S fuel) n acc = l ++ acc /\ l <> [] /\
      Forall (fun c => is_digit c = true) l /\
      forall a, fold_left digit_step l a = (a * 10 ^ Z.of_nat (length l) + n)%Z.
Proof.
  induction fuel as [|fuel IH]; intros n acc Hn.
  - assert (Hd : (0 <= n < 10)%Z) by (change (2 ^ Z.of_nat 1)%Z with 2%Z in Hn; lia).
    destruct (digit_char_ok (n mod 10)) as [H1 H2]; [apply Z.mod_pos_bound; lia|].
    exists [digit_char (n mod 10)]. simpl.
    replace (n <? 10)%Z with true by (symmetry; apply Z.ltb_lt; lia).
    repeat split; [discriminate | now repeat constructor |].
    intros a. unfold digit_step. rewrite H2, Z.mod_small by lia.
    change (Z.of_nat 1) with 1%Z. lia.
  - destruct (digit_char_ok (n mod 10)) as [H1 H2]; [apply Z.mod_pos_bound; lia|].
    change (digits_aux (S (S fuel)) n acc)
      with (if (n <? 10)%Z then digit_char (n mod 10) :: acc
            else digits_aux (S fuel) (n / 10) (digit_char (n mod 10) :: acc)).
    destruct (n <? 10)%Z eqn:E.
    + apply Z.ltb_lt in E. exists [digit_char (n mod 10)].
      repeat split; [discriminate | now repeat constructor |].
      intros a. simpl. unfold digit_step. rewrite H2, Z.mod_small by lia. lia.
    + apply Z.ltb_ge in E.
      destruct (IH (n / 10)%Z (digit_char (n mod 10) :: acc)) as (l & Hl & Hne & Hdig & Hval).
      { split; [apply Z.div_pos; lia|].
        apply Z.div_lt_upper_bound; [lia|].
        rewrite (Nat2Z.inj_succ (S fuel)), Z.pow_succ_r in Hn by lia. lia. }
      exists (l ++ [digit_char (n mod 10)]). rewrite Hl, <- app_assoc.
      repeat split.
      * intros Hnil. apply app_eq_nil in Hnil. destruct Hnil as [_ Hnil]. discriminate.
      * apply Forall_app. split; [exact Hdig | now repeat constructor].
      * intros a. rewrite fold_left_app, Hval. simpl. unfold digit_step at 1.
        rewrite H2, length_app. simpl length.
        rewrite Nat2Z.inj_add, Z.pow_add_r by lia.
        change (10 ^ Z.of_nat 1)%Z with 10%Z.
        pose proof (Z.div_mod n 10). lia.
Qed.

Lemma digits_spec (n : Z) :
  (0 <= n)%Z ->
  digits n <> [] /\ Forall (fun c => is_digit c = true) (digits n) /\
  digits_value (digits n) = n.
Proof.
  intros Hn. unfold digits.
  destruct (digits_aux_spec (Z.to_nat (Z.log2 n)) n []) as (l & Hl & Hne & Hdig & Hval).
  { split; [exact Hn|]. rewrite Nat2Z.inj_succ, Z2Nat.id by apply Z.log2_nonneg.
    destruct (Z.eq_dec n 0) as [->|Hz]; [reflexivity|].
    apply Z.log2_spec. lia. }
  rewrite Hl, app_nil_r. repeat split; auto.
  unfold digits_value. fold digit_step.
  change (fun (a : Z) (c : ascii) => (10 * a + digit_val c)%Z) with digit_step.
  rewrite Hval. lia.
Qed.

Lemma take_digits_all (l rest : str) :
  Forall (fun c => is_digit c = true) l ->
  match rest with [] => True | c :: _ => is_digit c = false end ->
  take_digits (l ++ rest) = l.
Proof.
  intros Hl Hrest. induction Hl as [|c l Hc _ IH]; simpl.
  - destruct rest as [|c rest]; [reflexivity|]. simpl. now rewrite Hrest.
  - now rewrite Hc, IH.
Qed.

(** A digit is none of the characters the loaders treat specially. *)
Lemma digit_plain (c : ascii) :
  is_digit c = true ->
  isspace c = false /\ c <> dash /\ c <> "+"%char /\
  c <> sp /\ c <> dq /\ c <> nl /\ c <> eqc /\ c <> hash /\ c <> nul /\ c <> cr.
Proof.
  intros H. repeat split; try (intros ->; discriminate H).
  unfold is_digit in H. unfold isspace.
  apply andb_true_iff in H. destruct H as [H1 H2].
  apply Nat.leb_le in H1, H2.
  apply orb_false_iff. split.
  - apply Nat.eqb_neq. lia.
  - apply andb_false_iff. right. apply Nat.leb_gt. lia.
Qed.

Lemma get_put_int (z : Z) : in_int z = true -> get_int (put_int z) = Some z.
Proof.
  intros Hz. unfold put_int, get_int.
  destruct (z <? 0)%Z eqn:E.
  - apply Z.ltb_lt in E.
    destruct (digits_spec (- z)) as (Hne & Hdig & Hval); [lia|].
    change (skipws (dash :: digits (- z))) with (dash :: digits (- z)).
    cbv beta iota zeta. rewrite Ascii.eqb_refl.
    rewrite <- (app_nil_r (digits (- z))), take_digits_all by (exact Hdig || exact I).
    destruct (digits (- z)) as [|c l] eqn:Ed; [contradiction|].
    rewrite Hval, Z.opp_involutive, Hz. reflexivity.
  - destruct (digits_spec z) as (Hne & Hdig & Hval); [apply Z.ltb_ge in E; lia|].
    destruct (digits z) as [|c l] eqn:Ed; [contradiction|].
    assert (Hc : is_digit c = true) by (now inversion Hdig).
    destruct (digit_plain c Hc) as (Hsp & Hdash & Hplus & _).
    cbn [skipws]. rewrite Hsp. cbv beta iota zeta.
    apply Ascii.eqb_neq in Hdash, Hplus. rewrite Hdash, Hplus.
    rewrite <- (app_nil_r (c :: l)), take_digits_all by (exact Hdig || exact I).
    rewrite Hval, Hz. reflexivity.
Qed.

Lemma string_codec_round_trip (s : str) :
  from_string_helper_string (to_string_helper_string s) = inr s.
Proof.
  unfold from_string_helper_string, to_string_helper_string, at_, substr.
  cbn [app length nth].
  rewrite length_app. cbn [length].
  replace (S (length s + 1) <? 2) with false by (symmetry; apply Nat.ltb_ge; lia).
  replace (S (length s + 1) - 1) with (S (length s)) by lia.
  replace (S (length s + 1) - 2) with (length s) by lia.
  cbn [nth skipn]. rewrite app_nth2, Nat.sub_diag by lia. cbn [nth].
  rewrite !Ascii.eqb_refl. cbn [andb].
  now rewrite firstn_length_app.
Qed.

(** What [to_string_helper] writes is read back by [from_string_helper]
    as the same value. *)
Lemma codec_round_trip (v : value) :
  value_in_range v = true -> from_string_helper (to_string_helper v) v = inr v.
Proof.
  destruct v as [z|b|s]; simpl; intros Hv.
  - unfold from_string_helper_generic, to_string_helper_generic.
    now rewrite get_put_int.
  - now destruct b.
  - fold (to_string_helper_string s). now rewrite string_codec_round_trip.
Qed.

(** ** Reloading a generated configuration string *)

Lemma no_char_spec (c : ascii) (s : str) : no_char c s = true -> ~ In c s.
Proof.
  unfold no_char. rewrite forallb_forall. intros H Hin.
  specialize (H c Hin). now rewrite Ascii.eqb_refl in H.
Qed.

Lemma increasing_sorted (ks : list str) : increasing ks = true -> Sorted str_lt ks.
Proof.
  induction ks as [|k1 [|k2 t] IH]; simpl; intros H; try (repeat constructor; fail).
  destruct (compare k1 k2) eqn:E; try discriminate.
  constructor; [now apply IH | now constructor].
Qed.

Lemma split_line_app (l t : str) : ~ In nl l -> split_line (l ++ nl :: t) = Some (l, t).
Proof.
  induction l as [|c l IH]; simpl; intros Hn.
  - reflexivity.
  - destruct (Ascii.eqb c nl) eqn:E.
    + apply Ascii.eqb_eq in E. tauto.
    + rewrite IH; tauto.
Qed.

Lemma getline_line (l t buff : str) :
  ~ In nl l ->
  getline (mkIstream (l ++ nl :: t) false false) buff = (mkIstream t false false, l).
Proof. intros Hn. unfold getline. simpl. now rewrite split_line_app. Qed.

Lemma unlines_cons (l : str) (ls : list str) :
  unlines (l :: ls) = l ++ nl :: unlines ls.
Proof. unfold unlines. simpl. now rewrite <- app_assoc. Qed.

Section Reload.

Variable m : ConfigOptions.

(** Lines that are all inert leave the options as they are, and the
    loop ends. *)
Lemma load_loop_inert (ls : list str) :
  Forall (inert m) ls ->
  forall (fuel : nat) (buff0 : str) (linenum : Z) (isr : istream) (buff : str),
    length (unlines ls) + 2 <= fuel ->
    getline (mkIstream (unlines ls) false false) buff0 = (isr, buff) ->
    load_loop fuel isr buff linenum m = Some (Done m).
Proof.
  induction 1 as [|l ls [Hnl Hl] _ IH]; intros fuel buff0 linenum isr buff Hfuel Hget.
  - unfold getline in Hget. simpl in Hget. injection Hget as <- <-.
    destruct fuel as [|fuel]; [simpl in Hfuel; lia|]. reflexivity.
  - rewrite unlines_cons in Hget, Hfuel. rewrite getline_line in Hget by exact Hnl.
    injection Hget as <- <-.
    rewrite length_app in Hfuel. cbn [length] in Hfuel.
    destruct fuel as [|fuel]; [lia|].
    cbn [load_loop eof fail eofbit failbit negb orb].
    destruct Hl as [Hskip|(i & Hfind & Hadd)].
    + rewrite Hskip.
      destruct (getline (mkIstream (unlines ls) false false) l) as [isr' buff'] eqn:Hg.
      apply (IH fuel l); [lia | exact Hg].
    + destruct (skipped l).
      * destruct (getline (mkIstream (unlines ls) false false) l) as [isr' buff'] eqn:Hg.
        apply (IH fuel l); [lia | exact Hg].
      * rewrite Hfind, Hadd.
        destruct (getline (mkIstream (unlines ls) false false) (strip_spaces l))
          as [isr' buff'] eqn:Hg.
        apply (IH fuel (strip_spaces l)); [lia | exact Hg].
Qed.

Lemma put_int_chars (z : Z) :
  Forall (fun c => c = dash \/ is_digit c = true) (put_int z).
Proof.
  unfold put_int. destruct (z <? 0)%Z eqn:E.
  - apply Z.ltb_lt in E. destruct (digits_spec (- z)) as (_ & Hd & _); [lia|].
    constructor; [now left|]. eapply Forall_impl; [|exact Hd]. now right.
  - apply Z.ltb_ge in E. destruct (digits_spec z) as (_ & Hd & _); [lia|].
    eapply Forall_impl; [|exact Hd]. now right.
Qed.

(** The text of an [int] or [bool] value has no space, quote or line
    feed. *)
Lemma plain_codec_chars (v : value) (c : ascii) :
  (forall s, v <> VString s) -> c = sp \/ c = dq \/ c = nl ->
  ~ In c (to_string_helper v).
Proof.
  intros Hv Hc Hin. destruct v as [z|b|s]; simpl in Hin.
  - pose proof (put_int_chars z) as H. rewrite Forall_forall in H.
    destruct (H c Hin) as [->|Hd].
    + destruct Hc as [Hc|[Hc|Hc]]; discriminate Hc.
    + destruct (digit_plain c Hd) as (_ & _ & _ & H1 & H2 & H3 & _).
      destruct Hc as [Hc|[Hc|Hc]]; tauto.
  - destruct b; simpl in Hin;
      repeat (destruct Hin as [<-|Hin];
              [destruct Hc as [Hc|[Hc|Hc]]; discriminate Hc|]); contradiction.
  - now apply (Hv s).
Qed.

Lemma codec_no_newline (v : value) :
  value_ok v = true -> ~ In nl (to_string_helper v).
Proof.
  intros Hv. destruct v as [z|b|s].
  - apply plain_codec_chars; [discriminate | tauto].
  - apply plain_codec_chars; [discriminate | tauto].
  - simpl. intros [H|H]; [discriminate H|].
    apply in_app_or in H. destruct H as [H|[H|[]]]; [|discriminate H].
    now apply (no_char_spec nl s).
Qed.

(** Behind a prefix without space or quote the text of a value is left
    as it is by [strip_spaces]. *)
Lemma strip_spaces_assignment (pre : str) (v : value) :
  ~ In sp pre -> ~ In dq pre ->
  strip_spaces (pre ++ to_string_helper v) = pre ++ to_string_helper v.
Proof.
  intros Hsp Hdq.
  assert (Hplain : (forall s, v <> VString s) ->
                   strip_spaces (pre ++ to_string_helper v) = pre ++ to_string_helper v).
  { intros Hv.
    destruct (strip_spaces_no_quote (pre ++ to_string_helper v)) as [-> _].
    - intros H. apply in_app_or in H. destruct H as [H|H]; [tauto|].
      revert H. apply plain_codec_chars; auto.
    - apply remove_absent. intros H. apply in_app_or in H. destruct H as [H|H]; [tauto|].
      revert H. apply plain_codec_chars; auto. }
  destruct v as [z|b|s]; try (apply Hplain; discriminate).
  cbn [to_string_helper]. unfold to_string_helper_string.
  change ([dq] ++ s ++ [dq]) with ((dq :: s) ++ dq :: []).
  destruct (strip_spaces_quoted pre (dq :: s) []) as [-> _]; auto.
  - right. now exists s.
  - now rewrite remove_absent.
Qed.

Lemma set_same (o : Option) : set (value_ o) o = o.
Proof.
  destruct o as [n d v f]. unfold set. simpl.
  replace (value_eqb v v) with true by (symmetry; now apply value_eqb_eq).
  now rewrite andb_true_r.
Qed.

Lemma store_same (k : str) (o : Option) :
  find k m = Some (Some o) -> store k o m = m.
Proof.
  induction m as [|[k' p] m' IH]; simpl; [reflexivity|].
  destruct (str_eqb k k').
  - intros H. injection H as ->. reflexivity.
  - intros H. now rewrite IH.
Qed.

(** Assigning to an option the text of its own value changes nothing. *)
Lemma add_if_possible_same (k : str) (o : Option) :
  find k m = Some (Some o) -> value_in_range (value_ o) = true ->
  add_if_possible k (to_string_helper (value_ o)) m = Done m.
Proof.
  intros Hf Hv. unfold add_if_possible, parse_value_from_str.
  now rewrite Hf, codec_round_trip, set_same, store_same.
Qed.

Lemma value_ok_in_range (v : value) : value_ok v = true -> value_in_range v = true.
Proof. now destruct v. Qed.

(** The assignment line of an option that is not commented out. *)
Lemma assignment_inert (k : str) (o : Option) :
  find k m = Some (Some o) -> key_ok k = true -> value_ok (value_ o) = true ->
  inert m (k ++ lit "=" ++ to_string_helper (value_ o)).
Proof.
  intros Hf Hk Hv. unfold key_ok in Hk.
  repeat (apply andb_true_iff in Hk; destruct Hk as [Hk ?]).
  apply negb_true_iff in Hk.
  assert (Hsp : ~ In sp k) by now apply no_char_spec.
  assert (Hdq : ~ In dq k) by now apply no_char_spec.
  assert (Heq : ~ In eqc k) by now apply no_char_spec.
  assert (Hnl : ~ In nl k) by now apply no_char_spec.
  destruct k as [|c k']; [discriminate Hk|].
  set (k := c :: k') in *. set (enc := to_string_helper (value_ o)).
  split.
  - intros H'. apply in_app_or in H'. destruct H' as [H'|[H'|H']]; [tauto|discriminate H'|].
    revert H'. now apply codec_no_newline.
  - right. exists (length k').
    assert (Hstrip : strip_spaces (k ++ lit "=" ++ enc) = k ++ eqc :: enc).
    { change (k ++ lit "=" ++ enc) with (k ++ [eqc] ++ enc).
      rewrite app_assoc. unfold enc. rewrite strip_spaces_assignment.
      - now rewrite <- app_assoc.
      - intros H'. apply in_app_or in H'. destruct H' as [H'|[H'|[]]]; [tauto|discriminate H'].
      - intros H'. apply in_app_or in H'. destruct H' as [H'|[H'|[]]]; [tauto|discriminate H']. }
    rewrite Hstrip. split.
    + now rewrite find_first_of_app.
    + unfold substr. change (S (length k')) with (length k).
      cbn [skipn]. rewrite firstn_length_app.
      replace (length k + 1) with (length (k ++ [eqc]))
        by (rewrite length_app; reflexivity).
      change (k ++ eqc :: enc) with (k ++ [eqc] ++ enc). rewrite app_assoc.
      rewrite skipn_length_app, firstn_all2
        by (rewrite !length_app; lia).
      apply add_if_possible_same; [exact Hf | now apply value_ok_in_range].
Qed.

Lemma entry_lines_inert (k : str) (o : Option) :
  find k m = Some (Some o) -> entry_ok (k, Some o) = true ->
  Forall (inert m) (entry_lines (lit "# ") k o).
Proof.
  intros Hf Hok. unfold entry_ok in Hok. simpl in Hok.
  apply andb_true_iff in Hok. destruct Hok as [Hok Hv].
  apply andb_true_iff in Hok. destruct Hok as [Hk Hd].
  apply no_char_spec in Hd.
  pose proof (assignment_inert k o Hf Hk Hv) as [Hnl Hact].
  unfold entry_lines, get_value. apply Forall_app. split.
  - destruct (description o) as [|c d] eqn:Ed; [constructor|].
    repeat constructor.
    + intros [H|[H|H]]; [discriminate H | discriminate H | tauto].
    + intros [H|[H|[]]]; discriminate H.
  - constructor; [|repeat constructor; auto].
    destruct (is_default o).
    + split; [|now left].
      intros [H|H]; [discriminate H | tauto].
    + split; [exact Hnl | exact Hact].
Qed.

Lemma config_lines_inert :
  reloadable m = true -> Forall (inert m) (config_lines (lit "# ") m).
Proof.
  unfold reloadable. intros H. apply andb_true_iff in H. destruct H as [Hs Hok].
  apply increasing_sorted in Hs. rewrite forallb_forall in Hok.
  unfold config_lines. apply Forall_flat_map, Forall_forall.
  intros [k p] Hin. pose proof (Hok _ Hin) as Hkp.
  destruct p as [o|]; [|discriminate Hkp]. simpl.
  apply entry_lines_inert; [|exact Hkp].
  now apply find_in_sorted.
Qed.

End Reload.

(** C1, amended. For a registry whose options are all of type [int],
    [bool] or [std::string] (no floating-point option), without null
    entries, whose keys are not empty, hold no space,
    quote, [=] or line feed and do not begin with [#], NUL or a carriage
    return, and whose descriptions and string values hold no line feed:
    [to_config_string()] returns a string, loading that string
    succeeds, and the registry afterwards is the registry at
    serialization time (every value and every default flag). *)
Theorem config_string_round_trip (m : ConfigOptions) :
  reloadable m = true ->
  exists cfg, to_config_string m = Some cfg /\ load_string cfg m = Some (Done m).
Proof.
  intros Hm. exists (unlines (config_lines (lit "# ") m)). split.
  - apply to_config_string_lines. apply Forall_forall. intros kp Hin.
    unfold reloadable in Hm. apply andb_true_iff in Hm. destruct Hm as [_ Hok].
    rewrite forallb_forall in Hok. specialize (Hok kp Hin).
    unfold entry_ok in Hok. destruct (snd kp); [discriminate | discriminate Hok].
  - unfold load_string, load_stream. cbn [fail failbit rest].
    destruct (getline (mkIstream (unlines (config_lines (lit "# ") m)) false false) [])
      as [isr buff] eqn:Hg.
    eapply load_loop_inert; [now apply config_lines_inert | | exact Hg]. lia.
Qed.

Lemma config_string_round_trip_witness :
  exists cfg,
    to_config_string registry_changed = Some cfg /\
    load_string cfg registry_changed = Some (Done registry_changed).
Proof. apply (config_string_round_trip registry_changed). reflexivity. Defined.

(** Loaded into the registry that still holds the defaults, the string
    generated from the changed options sets every option to its changed
    value. *)
Example reload_into_defaults :
  load_string (unlines (config_lines (lit "# ") registry_changed)) registry0
    = Some (Done registry_changed).
Proof. reflexivity. Qed.

(** C1 as stated fails: the string value of two lines is written as
    two lines; loading takes the first as the assignment of [opt3], which
    is left holding a quote and [a], and stops at the second with
    "No key found". *)
Lemma round_trip_two_lines_counterexample :
  to_config_string registry_two_lines =
    Some (lit "# option 3" ++ nl :: lit "# " ++ nl ::
          lit "opt3=" ++ dq :: lit "a" ++ nl :: lit "b" ++ dq :: nl :: [nl]) /\
  load_string (lit "# option 3" ++ nl :: lit "# " ++ nl ::
               lit "opt3=" ++ dq :: lit "a" ++ nl :: lit "b" ++ dq :: nl :: [nl])
              registry_two_lines =
    Some (Threw (ConfigOptionsLoadException (msg_no_key 3))
                (register [set (VString (dq :: lit "a")) opt3])).
Proof. split; reflexivity. Qed.

(** ** The loaders end *)

Lemma load_args_loop_total (argc : nat) (argv : list str) (fuel : nat) :
  forall (idx : nat) (m : ConfigOptions),
    argc - idx < fuel -> exists o, load_args_loop fuel argc argv idx m = Some o.
Proof.
  induction fuel as [|fuel IH]; intros idx m Hfuel; [lia|].
  cbn [load_args_loop].
  destruct (idx <? argc) eqn:Hlt; [|eauto]. apply Nat.ltb_lt in Hlt.
  destruct (nth_error argv idx) as [key|]; [|eauto].
  destruct (length key <? 3); [eauto|].
  destruct (negb (Ascii.eqb (at_ key 0) dash) && negb (Ascii.eqb (at_ key 1) dash));
    [eauto|].
  destruct (find (substr key 2 (length key - 1)) m) as [[o|]|]; [|eauto|eauto].
  destruct (is_bool o).
  - destruct (parse_value_from_str (lit "true") o); [eauto|]. apply IH. lia.
  - destruct (idx =? argc); [eauto|].
    destruct (nth_error argv (S idx)) as [v|]; [|eauto].
    destruct ((1 <? length v) && Ascii.eqb (at_ v 0) dash && Ascii.eqb (at_ v 1) dash);
      [eauto|].
    destruct (parse_value_from_str v o); [eauto|]. apply IH. lia.
Qed.

Lemma load_argv_total (argc : nat) (argv : list str) (m : ConfigOptions) :
  exists o, load_argv argc argv m = Some o.
Proof.
  unfold load_argv. destruct (argc <? 2) eqn:E; [eauto|].
  apply Nat.ltb_ge in E. apply load_args_loop_total. lia.
Qed.

Lemma split_line_length (s l t : str) :
  split_line s = Some (l, t) -> length s = length l + 1 + length t.
Proof.
  revert l. induction s as [|c s IH]; intros l; simpl; [discriminate|].
  destruct (Ascii.eqb c nl).
  - intros H. injection H as <- <-. simpl. lia.
  - destruct (split_line s) as [[l' t']|]; [|discriminate].
    intros H. injection H as <- <-. pose proof (IH l' eq_refl). cbn [length] in *. lia.
Qed.

(** [getline] never sets [failbit] without [eofbit] on a stream held in
    memory, and brings the stream nearer to its end. *)
Lemma getline_budget (isr : istream) (buff : str) :
  (failbit isr = true -> eofbit isr = true) ->
  negb (eofbit isr) || negb (failbit isr) = true ->
  (failbit (fst (getline isr buff)) = true -> eofbit (fst (getline isr buff)) = true) /\
  budget (fst (getline isr buff)) < budget isr.
Proof.
  destruct isr as [r e f]. unfold getline, budget. simpl. intros Hinv Hgo.
  destruct e; simpl.
  - destruct f; [discriminate Hgo|]. simpl. split; [auto | lia].
  - destruct f; [now discriminate Hinv|]. simpl.
    destruct (split_line r) as [[l t]|] eqn:Hs; simpl.
    + apply split_line_length in Hs. split; [discriminate | lia].
    + split; [auto|]. destruct r; simpl; lia.
Qed.

Lemma load_loop_total (fuel : nat) :
  forall (isr : istream) (buff : str) (linenum : Z) (m : ConfigOptions),
    (failbit isr = true -> eofbit isr = true) ->
    budget isr <= fuel ->
    exists o, load_loop fuel isr buff linenum m = Some o.
Proof.
  induction fuel as [|fuel IH]; intros isr buff linenum m Hinv Hfuel.
  - unfold budget in Hfuel. destruct (eofbit isr), (failbit isr); lia.
  - cbn [load_loop]. unfold eof, fail.
    destruct (negb (eofbit isr) || negb (failbit isr)) eqn:Hgo; [|eauto].
    assert (Hnext : forall b ln m',
               exists o, (let '(isr', buff') := getline isr b in
                          load_loop fuel isr' buff' ln m') = Some o).
    { intros b ln m'. destruct (getline_budget isr b Hinv Hgo) as [Hi Hb].
      destruct (getline isr b) as [isr' buff']. simpl in Hi, Hb.
      apply IH; [exact Hi | lia]. }
    destruct (skipped buff); [apply Hnext|].
    destruct (find_first_of (strip_spaces buff) eqc) as [[|i]|]; [eauto| |eauto].
    destruct (add_if_possible _ _ m) as [m'|[w|w] m'|]; eauto.
Qed.

Lemma load_string_total (_str : str) (m : ConfigOptions) :
  exists o, load_string _str m = Some o.
Proof.
  unfold load_string, load_stream. cbn [fail failbit rest].
  pose (isr := mkIstream _str false false).
  destruct (getline_budget isr [] (fun H => H) eq_refl) as [Hi Hb].
  fold isr. destruct (getline isr []) as [isr' buff]. simpl in Hi, Hb.
  apply load_loop_total; [exact Hi|].
  change (budget isr) with (length _str + 2) in Hb. lia.
Qed.

(** * Further properties *)

(** ** Registration and enumeration *)

Lemma find_fold_add_option (k : str) (l : list Option) :
  forall m : ConfigOptions,
    find k (fold_left (fun m o => add_option o m) l m) =
    match find k m with
    | Some p => Some p
    | None => option_map Some (first_named k l)
    end.
Proof.
  induction l as [|o l IH]; intros m; simpl.
  - now destruct (find k m).
  - rewrite IH. unfold add_option.
    destruct (str_eqb k (name o)) eqn:E.
    + apply str_eqb_eq in E. subst k.
      destruct (find (name o) m) as [p|] eqn:Hf; [now rewrite Hf|].
      now rewrite find_insert_same.
    + apply str_eqb_neq in E.
      destruct (find (name o) m) as [p|] eqn:Hf; [reflexivity|].
      now rewrite find_insert_other.
Qed.

(** X1. After the option objects [opts] were constructed, a key is
    found exactly when an object has it as its name, and the entry is
    the first such object: later objects of the same name are ignored. *)
Theorem register_first_wins (opts : list Option) (k : str) :
  find k (register opts) = option_map Some (first_named k opts).
Proof. unfold register. now rewrite find_fold_add_option. Qed.

Lemma advance_nth (m : ConfigOptions) :
  forall idx, idx <= length m -> advance idx m = Some (skipn idx m).
Proof.
  induction m as [|e m IH]; intros [|idx] H; simpl in *; try reflexivity; try lia.
  apply IH. lia.
Qed.

Lemma advance_beyond (m : ConfigOptions) :
  forall idx, length m < idx -> advance idx m = None.
Proof.
  induction m as [|e m IH]; intros [|idx] H; simpl in *; try reflexivity; try lia.
  apply IH. lia.
Qed.

Lemma option_by_index_nth (m : ConfigOptions) (idx : nat) (k : str) (p : ptr) :
  nth_error m idx = Some (k, p) -> option_by_index idx m = Some p.
Proof.
  intros H. unfold option_by_index.
  assert (Hlt : idx < length m) by (apply nth_error_Some; congruence).
  rewrite advance_nth by lia.
  revert idx H Hlt. induction m as [|e m IH]; intros [|idx] H Hlt; simpl in *; try lia.
  - injection H as ->. reflexivity.
  - apply IH; [exact H | lia].
Qed.

(** X2. In a registry of registered options, [option_by_index(idx)]
    for [idx < size()] is the option whose name is the [idx]-th key in
    increasing order, the one [find] gives for that name;
    [option_by_index(size())] is the null pointer, and a larger index
    moves the iterator past the end. *)
Theorem option_by_index_enumerates (opts : list Option) (idx : nat) :
  (idx < size (register opts) ->
   exists o, option_by_index idx (register opts) = Some (Some o) /\
             nth_error (keys (register opts)) idx = Some (name o) /\
             find (name o) (register opts) = Some (Some o)) /\
  option_by_index (size (register opts)) (register opts) = Some nullptr /\
  (size (register opts) < idx -> option_by_index idx (register opts) = None).
Proof.
  destruct (register_invariant opts) as [Hs Hr].
  set (m := register opts) in *. split; [|split].
  - intros Hlt. unfold size in Hlt.
    destruct (nth_error m idx) as [[k p]|] eqn:Hn;
      [|apply nth_error_None in Hn; lia].
    pose proof (nth_error_In _ _ Hn) as Hin.
    rewrite Forall_forall in Hr. destruct (Hr _ Hin) as (o & Ho & Hname & _).
    simpl in Ho, Hname. subst p k. exists o. split; [|split].
    + now apply (option_by_index_nth m idx (name o)).
    + unfold keys. now rewrite nth_error_map, Hn.
    + now apply find_in_sorted.
  - unfold option_by_index, size. rewrite advance_nth by lia.
    now rewrite skipn_all.
  - intros Hgt. unfold option_by_index. now rewrite advance_beyond.
Qed.

(** ** Codecs *)

Lemma from_string_helper_same_type (s : str) (a b : value) :
  same_type a b = true -> from_string_helper s a = from_string_helper s b.
Proof. destruct a, b; simpl; intros H; try discriminate H; reflexivity. Qed.

Lemma parse_written_value_typed (o o0 : Option) :
  value_in_range (value_ o) = true ->
  same_type (value_ o) (value_ o0) = true ->
  parse_value_from_str (get_value_as_str o) o0 = inr (set (value_ o) o0).
Proof.
  intros Hr Ht. unfold parse_value_from_str, get_value_as_str.
  rewrite <- (from_string_helper_same_type _ _ _ Ht).
  now rewrite codec_round_trip.
Qed.

(** X3. The text [get_value_as_str] gives for an option is parsed by
    every option of the same type as the value it was written from:
    [parse_value_from_str] succeeds and assigns that value. *)
Theorem parse_written_value (o o0 : Option) :
  value_in_range (value_ o) = true ->
  same_type (value_ o) (value_ o0) = true ->
  parse_value_from_str (get_value_as_str o) o0 = inr (set (value_ o) o0).
Proof. apply parse_written_value_typed. Qed.

Lemma parse_written_value_witness :
  parse_value_from_str (get_value_as_str (set (VInt (-2147483648)) opt1)) opt1
    = inr (set (value_ (set (VInt (-2147483648)) opt1)) opt1).
Proof.
  apply (parse_written_value (set (VInt (-2147483648)) opt1) opt1); reflexivity.
Defined.

(** X4. The generic decoder tests [ss.fail()] only: what follows the
    digits of a number is not looked at, so the text of an [int]
    followed by anything that does not begin with a digit is decoded as
    that [int]. *)
Theorem generic_decoder_ignores_tail (z d : Z) (tail : str) :
  in_int z = true ->
  match tail with [] => True | c :: _ => is_digit c = false end ->
  from_string_helper (to_string_helper (VInt z) ++ tail) (VInt d) = inr (VInt z).
Proof.
  intros Hz Htail. cbn [from_string_helper to_string_helper].
  unfold from_string_helper_generic, to_string_helper_generic.
  replace (get_int (put_int z ++ tail)) with (Some z); [reflexivity|].
  symmetry. unfold put_int, get_int.
  destruct (z <? 0)%Z eqn:E.
  - apply Z.ltb_lt in E.
    destruct (digits_spec (- z)) as (Hne & Hdig & Hval); [lia|].
    change (skipws ((dash :: digits (- z)) ++ tail))
      with (dash :: digits (- z) ++ tail).
    cbv beta iota zeta. rewrite Ascii.eqb_refl.
    rewrite take_digits_all by assumption.
    destruct (digits (- z)) as [|c l] eqn:Ed; [contradiction|].
    rewrite Hval, Z.opp_involutive, Hz. reflexivity.
  - destruct (digits_spec z) as (Hne & Hdig & Hval); [apply Z.ltb_ge in E; lia|].
    destruct (digits z) as [|c l] eqn:Ed; [contradiction|].
    assert (Hc : is_digit c = true) by (now inversion Hdig).
    destruct (digit_plain c Hc) as (Hsp & Hdash & Hplus & _).
    cbn [app skipws]. rewrite Hsp. cbv beta iota zeta.
    apply Ascii.eqb_neq in Hdash, Hplus. rewrite Hdash, Hplus.
    change (c :: l ++ tail) with ((c :: l) ++ tail).
    rewrite take_digits_all by assumption.
    rewrite Hval, Hz. reflexivity.
Qed.

Lemma generic_decoder_ignores_tail_witness :
  from_string_helper (to_string_helper (VInt 30) ++ lit "abc") (VInt 10) = inr (VInt 30).
Proof.
  apply (generic_decoder_ignores_tail 30 10 (lit "abc")); reflexivity.
Defined.

Lemma quoted_shape (s : str) :
  2 <= length s -> at_ s 0 = dq -> at_ s (length s - 1) = dq ->
  s = dq :: substr s 1 (length s - 2) ++ [dq].
Proof.
  destruct s as [|c s]; [simpl; lia|]. unfold at_, substr. cbn [length nth skipn].
  intros Hlen -> Hlast. f_equal.
  replace (S (length s) - 1) with (length s) in Hlast by lia.
  replace (S (length s) - 2) with (length s - 1) by lia.
  destruct (@exists_last _ s) as (s' & x & ->).
  { intros ->. simpl in Hlen. lia. }
  rewrite length_app in *. cbn [length] in *.
  replace (length s' + 1 - 1) with (length s') by lia.
  rewrite firstn_length_app. f_equal. f_equal.
  replace (length s' + 1) with (S (length s')) in Hlast by lia.
  cbn [nth] in Hlast. now rewrite nth_middle in Hlast.
Qed.

(** X5. [parse_value_from_str] never throws on a string option: a
    text made of a double quote, any characters and a double quote is
    assigned without that pair of quotes, and every other text is
    assigned as it is. *)
Theorem string_option_parse_never_throws (s v : str) (o : Option) :
  value_ o = VString v ->
  (forall s', s = dq :: s' ++ [dq] ->
              parse_value_from_str s o = inr (set (VString s') o)) /\
  ((forall s', s <> dq :: s' ++ [dq]) ->
   parse_value_from_str s o = inr (set (VString s) o)).
Proof.
  intros Hv. unfold parse_value_from_str. rewrite Hv.
  cbn [from_string_helper]. split.
  - intros s' ->. change (dq :: s' ++ [dq]) with (to_string_helper_string s').
    now rewrite string_codec_round_trip.
  - intros Hs. unfold from_string_helper_string.
    destruct (length s <? 2) eqn:Hl; [reflexivity|].
    apply Nat.ltb_ge in Hl.
    destruct (Ascii.eqb (at_ s 0) dq && Ascii.eqb (at_ s (length s - 1)) dq) eqn:Hq;
      [|reflexivity].
    apply andb_true_iff in Hq. destruct Hq as [H0 H1].
    apply Ascii.eqb_eq in H0, H1.
    exfalso. apply (Hs (substr s 1 (length s - 2))). now apply quoted_shape.
Qed.

Lemma string_option_parse_never_throws_witness :
  (forall s', dq :: lit " test test " ++ [dq] = dq :: s' ++ [dq] ->
              parse_value_from_str (dq :: lit " test test " ++ [dq]) opt3
                = inr (set (VString s') opt3)) /\
  ((forall s', dq :: lit " test test " ++ [dq] <> dq :: s' ++ [dq]) ->
   parse_value_from_str (dq :: lit " test test " ++ [dq]) opt3
     = inr (set (VString (dq :: lit " test test " ++ [dq])) opt3)).
Proof.
  apply (string_option_parse_never_throws (dq :: lit " test test " ++ [dq])
           (lit "opt3!") opt3).
  reflexivity.
Defined.

(** ** What the loaders keep *)






















Lemma null_free_find (m : ConfigOptions) (k : str) :
  null_free m = true -> find k m <> Some nullptr.
Proof.
  unfold null_free. induction m as [|[k' p] m IH]; simpl; [discriminate|].
  intros H. apply andb_true_iff in H. destruct H as [Hp Hm].
  destruct (str_eqb k k'); [|auto]. destruct p; [discriminate | discriminate Hp].
Qed.

Lemma store_null_free (k : str) (o : Option) (m : ConfigOptions) :
  null_free m = true -> null_free (store k o m) = true.
Proof.
  unfold null_free. induction m as [|[k' p] m IH]; simpl; [reflexivity|].
  intros H. apply andb_true_iff in H. destruct H as [Hp Hm].
  destruct (str_eqb k k'); simpl; [exact Hm|]. rewrite Hp. now apply IH.
Qed.

Lemma load_loop_defined (fuel : nat) :
  forall (isr : istream) (buff : str) (linenum : Z) (m : ConfigOptions),
    null_free m = true -> load_loop fuel isr buff linenum m <> Some Undefined.
Proof.
  induction fuel as [|fuel IH]; intros isr buff linenum m Hm; cbn [load_loop];
    [discriminate|].
  destruct (negb (eof isr) || negb (fail isr)); [|discriminate].
  destruct (skipped buff).
  { destruct (getline isr buff) as [isr' buff']. now apply IH. }
  destruct (find_first_of (strip_spaces buff) eqc) as [[|i]|]; try discriminate.
  unfold add_if_possible.
  destruct (find _ m) as [[o|]|] eqn:Hf; [| |discriminate].
  - destruct (parse_value_from_str _ o) as [[w|w]|o']; try discriminate.
    destruct (getline isr (strip_spaces buff)) as [isr' buff'].
    apply IH. now apply store_null_free.
  - exfalso. revert Hf. now apply null_free_find.
Qed.

(** X8. On a registry without null entries [load] of a string never
    has undefined behaviour: it returns or throws. *)
Theorem load_string_defined (s : str) (m : ConfigOptions) :
  null_free m = true ->
  exists out, load_string s m = Some out /\ out <> Undefined.
Proof.
  intros Hm. destruct (load_string_total s m) as [out Hout].
  exists out. split; [exact Hout|]. intros ->. revert Hout.
  unfold load_string, load_stream. cbn [fail failbit rest].
  destruct (getline (mkIstream s false false) []) as [isr buff].
  now apply load_loop_defined.
Qed.

Lemma load_string_defined_witness :
  exists out, load_string (lit "opt9") registry0 = Some out /\ out <> Undefined.
Proof. apply (load_string_defined (lit "opt9") registry0). reflexivity. Defined.

(** ** The text loader, line by line *)

Lemma lines_split (s l t : str) :
  split_line s = Some (l, t) -> lines s = l :: lines t.
Proof.
  revert l. induction s as [|c s IH]; intros l; simpl; [discriminate|].
  destruct (Ascii.eqb c nl).
  - intros H. now injection H as <- <-.
  - destruct (split_line s) as [[l' t']|]; [|discriminate].
    intros H. injection H as <- <-. now rewrite (IH l' eq_refl).
Qed.

Lemma lines_last (s : str) :
  split_line s = None -> s <> [] -> lines s = [s].
Proof.
  induction s as [|c s IH]; simpl; [congruence|].
  destruct (Ascii.eqb c nl); [discriminate|].
  destruct (split_line s) as [[l' t']|]; [discriminate|]. intros _ _.
  destruct s as [|c' s]; [reflexivity|]. rewrite IH; [reflexivity | reflexivity | discriminate].
Qed.

Lemma load_loop_step (fuel : nat) (isr : istream) (buff : str) (linenum : Z)
    (m : ConfigOptions) :
  load_loop (S fuel) isr buff linenum m =
  if negb (eof isr) || negb (fail isr) then
    match load_line buff linenum m with
    | Done m' =>
        let '(isr', buff') :=
          getline isr (if skipped buff then buff else strip_spaces buff) in
        load_loop fuel isr' buff' (uint (linenum + 1)) m'
    | o => Some o
    end
  else Some (Done m).
Proof.
  cbn [load_loop]. unfold load_line.
  destruct (negb (eof isr) || negb (fail isr)); [|reflexivity].
  destruct (skipped buff); [reflexivity|].
  destruct (find_first_of (strip_spaces buff) eqc) as [[|i]|]; try reflexivity.
  destruct (add_if_possible _ _ m) as [m'|[w|w] m'|]; reflexivity.
Qed.

Lemma load_loop_lines (fuel : nat) :
  forall (r buff0 : str) (linenum : Z) (m : ConfigOptions) (isr : istream)
         (buff : str),
    length r + 2 <= fuel ->
    getline (mkIstream r false false) buff0 = (isr, buff) ->
    load_loop fuel isr buff linenum m = Some (load_lines (lines r) linenum m).
Proof.
  induction fuel as [|fuel IH]; intros r buff0 linenum m isr buff Hfuel Hget; [lia|].
  unfold getline in Hget. cbn [eofbit failbit orb rest] in Hget.
  rewrite load_loop_step.
  destruct (split_line r) as [[l t]|] eqn:Hs.
  - injection Hget as <- <-. cbn [eof fail eofbit failbit negb orb].
    rewrite (lines_split _ _ _ Hs). cbn [load_lines].
    apply split_line_length in Hs.
    destruct (load_line l linenum m) as [m'| |]; try reflexivity.
    destruct (getline (mkIstream t false false) _) as [isr' buff'] eqn:Hg.
    apply (IH t _ _ _ _ _ ltac:(lia) Hg).
  - injection Hget as <- <-. cbn [eof fail eofbit failbit].
    destruct r as [|c r]; [reflexivity|].
    cbn [length Nat.eqb negb orb].
    rewrite (lines_last (c :: r) Hs) by discriminate. cbn [load_lines].
    destruct (load_line (c :: r) linenum m) as [m'| |]; try reflexivity.
    unfold getline. cbn [eofbit failbit orb].
    destruct fuel as [|fuel]; [simpl in Hfuel; lia|]. reflexivity.
Qed.

Lemma load_string_lines (s : str) (m : ConfigOptions) :
  load_string s m = Some (load_lines (lines s) 0%Z m).
Proof.
  unfold load_string, load_stream. cbn [fail failbit rest].
  destruct (getline (mkIstream s false false) []) as [isr buff] eqn:Hg.
  apply (load_loop_lines _ s [] 0%Z m isr buff (Nat.le_refl _) Hg).
Qed.

(** X9. [load] of a string is the loading, in order and up to the first
    exception, of the lines of the string with the line counter starting
    at 0: the text is cut at the line feeds, a last line without line
    feed counts, and an empty string has no line. *)
Theorem load_string_by_lines (s : str) (m : ConfigOptions) :
  load_string s m = Some (load_lines (lines s) 0%Z m).
Proof. apply load_string_lines. Qed.

Lemma lines_snoc_nl (s : str) :
  lines (s ++ [nl]) = lines s \/ lines (s ++ [nl]) = lines s ++ [[]].
Proof.
  induction s as [|c s IH]; [now right|]. cbn [app lines].
  destruct (Ascii.eqb c nl).
  - destruct IH as [->| ->]; [now left | now right].
  - destruct IH as [->| ->]; [now left|].
    destruct (lines s) as [|l ls]; [now left | now right].
Qed.

Lemma load_lines_snoc_empty (ls : list str) :
  forall (linenum : Z) (m : ConfigOptions),
    load_lines (ls ++ [[]]) linenum m = load_lines ls linenum m.
Proof.
  induction ls as [|l ls IH]; intros linenum m; [reflexivity|].
  cbn [app load_lines]. destruct (load_line l linenum m); auto.
Qed.

(** X10. A line feed more at the end of the text changes nothing: the
    string with it and the string without it load alike, so a last line
    need not be closed. *)
Theorem load_string_final_newline (s : str) (m : ConfigOptions) :
  load_string (s ++ [nl]) m = load_string s m.
Proof.
  rewrite !load_string_lines.
  destruct (lines_snoc_nl s) as [->| ->]; [reflexivity|].
  now rewrite load_lines_snoc_empty.
Qed.

Lemma lines_closed_nonempty (s : str) : lines (s ++ [nl]) <> [].
Proof.
  induction s as [|c s IH]; cbn [app lines]; [discriminate|].
  destruct (Ascii.eqb c nl); [discriminate|].
  destruct (lines (s ++ [nl])); [contradiction | discriminate].
Qed.

Lemma lines_app (s1 s2 : str) :
  lines ((s1 ++ [nl]) ++ s2) = lines (s1 ++ [nl]) ++ lines s2.
Proof.
  induction s1 as [|c s1 IH]; [reflexivity|]. cbn [app lines].
  destruct (Ascii.eqb c nl); [now rewrite IH|].
  rewrite IH. pose proof (lines_closed_nonempty s1) as Hne.
  destruct (lines (s1 ++ [nl])) as [|l ls]; [contradiction | reflexivity].
Qed.

Lemma load_line_done_any_linenum (l : str) (n n' : Z) (m m' : ConfigOptions) :
  load_line l n m = Done m' -> load_line l n' m = Done m'.
Proof.
  unfold load_line. destruct (skipped l); [auto|].
  destruct (find_first_of (strip_spaces l) eqc) as [[|i]|]; try discriminate.
  destruct (add_if_possible _ _ m) as [m1|[w|w] m1|]; auto; discriminate.
Qed.

Lemma load_lines_done_any_linenum (ls : list str) :
  forall (n n' : Z) (m m' : ConfigOptions),
    load_lines ls n m = Done m' -> load_lines ls n' m = Done m'.
Proof.
  induction ls as [|l ls IH]; intros n n' m m'; cbn [load_lines]; [auto|].
  destruct (load_line l n m) as [m1| |] eqn:E; try discriminate.
  rewrite (load_line_done_any_linenum l n n' m m1 E). apply IH.
Qed.

Lemma load_lines_app (a b : list str) :
  forall (n : Z) (m : ConfigOptions),
    (forall m1 m2, load_lines a n m = Done m1 -> load_lines b 0%Z m1 = Done m2 ->
                   load_lines (a ++ b) n m = Done m2) /\
    (forall e m1, load_lines a n m = Threw e m1 ->
                  load_lines (a ++ b) n m = Threw e m1).
Proof.
  induction a as [|l a IH]; intros n m; cbn [app load_lines]; split.
  - intros m1 m2 H1 H2. injection H1 as <-.
    now apply (load_lines_done_any_linenum b 0%Z n).
  - discriminate.
  - destruct (load_line l n m) as [m'| |] eqn:E; try discriminate.
    apply (proj1 (IH _ _)).
  - destruct (load_line l n m) as [m'| |] eqn:E; try discriminate; [|auto].
    apply (proj2 (IH _ _)).
Qed.

(** X11. Loading two texts one after the other is loading them joined,
    when the first ends with a line feed: if the first text loads and
    the second loads into what it left, the joined text loads to the
    same registry; and if the first text throws, the joined text throws
    the same exception, leaving the same registry. *)
Theorem load_string_app (s1 s2 : str) (m : ConfigOptions) :
  (forall m1 m2,
      load_string (s1 ++ [nl]) m = Some (Done m1) ->
      load_string s2 m1 = Some (Done m2) ->
      load_string ((s1 ++ [nl]) ++ s2) m = Some (Done m2)) /\
  (forall e m1,
      load_string (s1 ++ [nl]) m = Some (Threw e m1) ->
      load_string ((s1 ++ [nl]) ++ s2) m = Some (Threw e m1)).
Proof.
  rewrite !load_string_lines, lines_app.
  destruct (load_lines_app (lines (s1 ++ [nl])) (lines s2) 0%Z m) as [Hd Ht].
  split.
  - intros m1 m2 H1 H2. rewrite load_string_lines in H2.
    injection H1 as H1. injection H2 as H2. f_equal. now apply (Hd m1).
  - intros e m1 H1. injection H1 as H1. f_equal. now apply Ht.
Qed.

(** ** Generated configuration strings *)

Lemma lines_line (l t : str) : ~ In nl l -> lines (l ++ nl :: t) = l :: lines t.
Proof.
  induction l as [|c l IH]; cbn [app lines]; intros Hn.
  - now rewrite Ascii.eqb_refl.
  - destruct (Ascii.eqb c nl) eqn:E.
    + apply Ascii.eqb_eq in E. subst c. exfalso. apply Hn. now left.
    + rewrite IH; [reflexivity|]. intros H. apply Hn. now right.
Qed.

Lemma lines_unlines (ls : list str) :
  Forall (fun l => ~ In nl l) ls -> lines (unlines ls) = ls.
Proof.
  induction 1 as [|l ls Hl _ IH]; [reflexivity|].
  now rewrite unlines_cons, lines_line, IH.
Qed.

Lemma load_lines_skipped (ls : list str) :
  Forall (fun l => skipped l = true) ls ->
  forall (n : Z) (m : ConfigOptions), load_lines ls n m = Done m.
Proof.
  induction 1 as [|l ls Hl _ IH]; intros n m; cbn [load_lines]; [reflexivity|].
  unfold load_line. rewrite Hl. apply IH.
Qed.

Lemma default_lines (m : ConfigOptions) :
  all_default m = true ->
  Forall (fun e => snd e <> nullptr) m /\
  Forall (fun l => ~ In nl l) (config_lines (lit "# ") m) /\
  Forall (fun l => skipped l = true) (config_lines (lit "# ") m).
Proof.
  unfold all_default. induction m as [|[k p] m IH]; cbn [forallb].
  - intros _. repeat split; constructor.
  - intros H. apply andb_true_iff in H. destruct H as [He Hm].
    destruct (IH Hm) as (H1 & H2 & H3). cbn [snd fst] in He.
    destruct p as [o|]; [|discriminate He].
    apply andb_true_iff in He. destruct He as [He Hvo].
    apply andb_true_iff in He. destruct He as [He Hdo].
    apply andb_true_iff in He. destruct He as [He Hko].
    assert (Hk : ~ In nl k) by now apply no_char_spec.
    assert (Hd : ~ In nl (description o)) by now apply no_char_spec.
    assert (Hv : ~ In nl (to_string_helper (value_ o))) by now apply codec_no_newline.
    split; [constructor; [discriminate | exact H1]|].
    unfold config_lines. cbn [flat_map snd fst]. fold (config_lines (lit "# ") m).
    unfold entry_lines, get_value. rewrite He.
    split; apply Forall_app; (split; [|assumption]); apply Forall_app; split.
    + destruct (description o) as [|c d] eqn:Ed; [constructor|].
      repeat constructor.
      * intros [E|[E|E]]; [discriminate E | discriminate E | tauto].
      * intros [E|[E|[]]]; discriminate E.
    + repeat constructor; [|tauto]. intros E.
      change (lit "#" ++ k ++ lit "=" ++ to_string_helper (value_ o))
        with (hash :: k ++ eqc :: to_string_helper (value_ o)) in E.
      apply in_inv in E. destruct E as [E|E]; [discriminate E|].
      apply in_app_or in E. destruct E as [E|E]; [tauto|].
      apply in_inv in E. destruct E as [E|E]; [discriminate E | tauto].
    + destruct (description o) as [|c d]; repeat constructor.
    + repeat constructor.
Qed.

Lemma config_string_reloads (m : ConfigOptions) :
  reloadable m = true ->
  to_config_string m = Some (unlines (config_lines (lit "# ") m)) /\
  Forall (fun l => ~ In nl l) (config_lines (lit "# ") m).
Proof.
  intros Hm. split.
  - apply to_config_string_lines. apply Forall_forall. intros kp Hin.
    unfold reloadable in Hm. apply andb_true_iff in Hm. destruct Hm as [_ Hok].
    rewrite forallb_forall in Hok. specialize (Hok kp Hin).
    unfold entry_ok in Hok. destruct (snd kp); [discriminate | discriminate Hok].
  - eapply Forall_impl; [|now apply config_lines_inert]. now intros l [Hl _].
Qed.

(** X12. The string generated from a registry whose options are all
    marked default holds comment lines and empty lines only: loading it
    succeeds and changes nothing, whatever registry loads it. *)
Theorem default_config_string_changes_nothing (m m' : ConfigOptions) :
  all_default m = true ->
  exists cfg, to_config_string m = Some cfg /\ load_string cfg m' = Some (Done m').
Proof.
  intros Hm. destruct (default_lines m Hm) as (Hnn & Hnl & Hsk).
  exists (unlines (config_lines (lit "# ") m)). split.
  - now apply to_config_string_lines.
  - rewrite load_string_lines, lines_unlines by exact Hnl.
    now rewrite load_lines_skipped.
Qed.

Lemma default_config_string_changes_nothing_witness :
  exists cfg, to_config_string registry0 = Some cfg /\
              load_string cfg registry_changed = Some (Done registry_changed).
Proof.
  apply (default_config_string_changes_nothing registry0 registry_changed).
  reflexivity.
Defined.

(** The assignment line of a value, as the loop sees it. *)
Lemma assignment_line (k : str) (v : value) :
  key_ok k = true -> value_ok v = true ->
  skipped (k ++ lit "=" ++ to_string_helper v) = false /\
  exists i,
    find_first_of (strip_spaces (k ++ lit "=" ++ to_string_helper v)) eqc = Some (S i) /\
    substr (strip_spaces (k ++ lit "=" ++ to_string_helper v)) 0 (S i) = k /\
    substr (strip_spaces (k ++ lit "=" ++ to_string_helper v)) (S i + 1)
           (length (strip_spaces (k ++ lit "=" ++ to_string_helper v)))
      = to_string_helper v.
Proof.
  intros Hk Hv. unfold key_ok in Hk.
  apply andb_true_iff in Hk. destruct Hk as [Hk Hnl].
  apply andb_true_iff in Hk. destruct Hk as [Hk Heq].
  apply andb_true_iff in Hk. destruct Hk as [Hk Hdq].
  apply andb_true_iff in Hk. destruct Hk as [Hk Hsp].
  apply negb_true_iff in Hk.
  apply no_char_spec in Hsp, Hdq, Heq, Hnl.
  destruct k as [|c k']; [discriminate Hk|].
  set (k := c :: k') in *. set (enc := to_string_helper v).
  split; [exact Hk|]. exists (length k').
  assert (Hstrip : strip_spaces (k ++ lit "=" ++ enc) = k ++ eqc :: enc).
  { change (k ++ lit "=" ++ enc) with (k ++ [eqc] ++ enc).
    rewrite app_assoc. unfold enc. rewrite strip_spaces_assignment.
    - now rewrite <- app_assoc.
    - intros H'. apply in_app_or in H'. destruct H' as [H'|[H'|[]]]; [tauto|discriminate H'].
    - intros H'. apply in_app_or in H'. destruct H' as [H'|[H'|[]]]; [tauto|discriminate H']. }
  rewrite Hstrip. split; [now rewrite find_first_of_app|].
  unfold substr. change (S (length k')) with (length k).
  cbn [skipn]. rewrite firstn_length_app. split; [reflexivity|].
  replace (length k + 1) with (length (k ++ [eqc]))
    by (rewrite length_app; reflexivity).
  change (k ++ eqc :: enc) with (k ++ [eqc] ++ enc). rewrite app_assoc.
  now rewrite skipn_length_app, firstn_all2 by (rewrite !length_app; lia).
Qed.

Lemma load_line_assignment (k : str) (v : value) (n : Z) (m m' : ConfigOptions) :
  key_ok k = true -> value_ok v = true ->
  add_if_possible k (to_string_helper v) m = Done m' ->
  load_line (k ++ lit "=" ++ to_string_helper v) n m = Done m'.
Proof.
  intros Hk Hv Ha. destruct (assignment_line k v Hk Hv) as (Hs & i & Hf & Hkey & Hval).
  unfold load_line. rewrite Hs, Hf, Hkey, Hval, Ha. reflexivity.
Qed.

Lemma store_at (k : str) (p : ptr) (o' : Option) (pre suf : ConfigOptions) :
  Sorted str_lt (keys (pre ++ (k, p) :: suf)) ->
  store k o' (pre ++ (k, p) :: suf) = pre ++ (k, Some o') :: suf.
Proof.
  intros Hs. apply keys_strongly_sorted in Hs.
  induction pre as [|[k1 p1] pre IH]; cbn [app store].
  - now rewrite str_eqb_refl.
  - unfold keys in Hs. cbn [app map fst] in Hs.
    inversion Hs as [|? ? Hs' Hall]; subst.
    replace (str_eqb k k1) with false; [now rewrite IH|].
    symmetry. apply str_eqb_neq. intros <-.
    rewrite Forall_forall in Hall. apply (str_lt_irrefl k). apply Hall.
    rewrite map_app. apply in_or_app. right. now left.
Qed.

Lemma load_entry_lines (k : str) (o o0 : Option) (pre suf0 : ConfigOptions) (n : Z) :
  Sorted str_lt (keys (pre ++ (k, Some o0) :: suf0)) ->
  entry_ok (k, Some o) = true ->
  same_type (value_ o) (value_ o0) = true ->
  load_lines (entry_lines (lit "# ") k o) n (pre ++ (k, Some o0) :: suf0)
    = Done (pre ++ (k, Some (if is_default o then o0 else set (value_ o) o0)) :: suf0).
Proof.
  intros Hs Hok Ht. unfold entry_ok in Hok. cbn [fst snd] in Hok.
  apply andb_true_iff in Hok. destruct Hok as [Hok Hv].
  apply andb_true_iff in Hok. destruct Hok as [Hk _].
  unfold entry_lines, get_value.
  apply (proj1 (load_lines_app _ _ n _) (pre ++ (k, Some o0) :: suf0)).
  - apply load_lines_skipped.
    destruct (description o); repeat constructor.
  - cbn [load_lines]. destruct (is_default o) eqn:Hd.
    + reflexivity.
    + change ([] ++ k ++ lit "=" ++ to_string_helper (value_ o))
        with (k ++ lit "=" ++ to_string_helper (value_ o)).
      rewrite (load_line_assignment k (value_ o) 0%Z _
                 (pre ++ (k, Some (set (value_ o) o0)) :: suf0) Hk Hv);
        [reflexivity|].
      unfold add_if_possible.
      rewrite (find_in_sorted _ k (Some o0) Hs) by (apply in_or_app; right; now left).
      fold (get_value_as_str o).
      rewrite parse_written_value_typed by (auto using value_ok_in_range).
      now rewrite store_at.
Qed.

Lemma load_config_lines_into (suf : ConfigOptions) :
  forall (suf0 pre : ConfigOptions) (n : Z),
    compatible suf suf0 = true -> forallb entry_ok suf = true ->
    Sorted str_lt (keys (pre ++ suf0)) ->
    load_lines (config_lines (lit "# ") suf) n (pre ++ suf0)
      = Done (pre ++ overlay suf suf0).
Proof.
  induction suf as [|[k p] suf IH]; intros [|[k0 p0] suf0] pre n Hc Hok Hs;
    try discriminate Hc; [reflexivity|].
  cbn [compatible fst snd] in Hc.
  apply andb_true_iff in Hc. destruct Hc as [Hc Hrest].
  apply andb_true_iff in Hc. destruct Hc as [Hkk Ht].
  apply str_eqb_eq in Hkk. subst k0.
  cbn [forallb] in Hok. apply andb_true_iff in Hok. destruct Hok as [He Hok].
  destruct p as [o|]; [|discriminate Ht]. destruct p0 as [o0|]; [|discriminate Ht].
  unfold config_lines. cbn [flat_map fst snd]. fold (config_lines (lit "# ") suf).
  cbn [overlay]. unfold reload_entry. cbn [fst snd].
  apply (proj1 (load_lines_app _ _ n _)
               (pre ++ (k, Some (if is_default o then o0 else set (value_ o) o0)) :: suf0)).
  - now apply load_entry_lines.
  - change (pre ++ (k, Some (if is_default o then o0 else set (value_ o) o0)) :: ?x)
      with (pre ++ [(k, Some (if is_default o then o0 else set (value_ o) o0))] ++ x).
    rewrite !(app_assoc pre). apply IH; [exact Hrest | exact Hok|].
    unfold keys in *. rewrite !map_app in *. cbn [map fst] in *.
    now rewrite <- app_assoc.
Qed.

Lemma compatible_keys (m : ConfigOptions) :
  forall m0, compatible m m0 = true -> keys m0 = keys m.
Proof.
  induction m as [|e m IH]; intros [|e0 m0] Hc; try discriminate Hc; [reflexivity|].
  cbn [compatible] in Hc.
  apply andb_true_iff in Hc. destruct Hc as [Hc Hrest].
  apply andb_true_iff in Hc. destruct Hc as [Hkk _].
  apply str_eqb_eq in Hkk. unfold keys in *. cbn [map]. now rewrite Hkk, (IH m0).
Qed.

Lemma overlay_keys (m : ConfigOptions) :
  forall m0, keys (overlay m m0) = keys m0.
Proof.
  induction m as [|e m IH]; intros [|e0 m0]; try reflexivity.
  unfold keys in *. cbn [overlay map reload_entry fst]. now rewrite IH.
Qed.

Lemma overlay_find (m : ConfigOptions) (k : str) (o : Option) :
  forall m0,
    compatible m m0 = true -> find k m = Some (Some o) ->
    exists o0, find k m0 = Some (Some o0) /\
               find k (overlay m m0)
                 = Some (Some (if is_default o then o0 else set (value_ o) o0)).
Proof.
  induction m as [|[k1 p1] m IH]; intros [|[k0 p0] m0] Hc Hf; try discriminate.
  cbn [compatible fst snd] in Hc.
  apply andb_true_iff in Hc. destruct Hc as [Hc Hrest].
  apply andb_true_iff in Hc. destruct Hc as [Hkk Ht].
  apply str_eqb_eq in Hkk. subst k0.
  cbn [find overlay reload_entry fst snd] in *.
  destruct (str_eqb k k1); [|now apply IH].
  injection Hf as ->. destruct p0 as [o0|]; [|discriminate Ht].
  exists o0. now split.
Qed.

(** X13. Round trip into another registry, for options of type [int],
    [bool] or [std::string] (no floating-point option): the string
    generated from a reloadable registry [m] loads into every registry
    [m0] that has the same keys with options of the same types, for
    instance the one that still holds the defaults. Afterwards the keys are those of [m0];
    each option that was not default in [m] is the option of [m0] with
    the value of [m] assigned, and each option that was default in [m]
    is as it was in [m0]. *)
Theorem config_string_reload_into (m m0 : ConfigOptions) :
  reloadable m = true -> compatible m m0 = true ->
  exists cfg m',
    to_config_string m = Some cfg /\
    load_string cfg m0 = Some (Done m') /\
    keys m' = keys m0 /\
    forall k o,
      find k m = Some (Some o) ->
      exists o0, find k m0 = Some (Some o0) /\
                 find k m' = Some (Some (if is_default o then o0
                                         else set (value_ o) o0)).
Proof.
  intros Hm Hc.
  destruct (config_string_reloads m Hm) as (Hcfg & Hnl).
  unfold reloadable in Hm. apply andb_true_iff in Hm. destruct Hm as [Hs Hok].
  apply increasing_sorted in Hs.
  exists (unlines (config_lines (lit "# ") m)), (overlay m m0).
  split; [exact Hcfg|]. split; [|split].
  - rewrite load_string_lines, lines_unlines by exact Hnl. f_equal.
    apply (load_config_lines_into m m0 [] 0%Z Hc Hok).
    cbn [app]. now rewrite (compatible_keys m m0 Hc).
  - apply overlay_keys.
  - intros k o. now apply overlay_find.
Qed.

Lemma config_string_reload_into_witness :
  exists cfg m',
    to_config_string registry_changed = Some cfg /\
    load_string cfg registry0 = Some (Done m') /\
    keys m' = keys registry0 /\
    forall k o,
      find k registry_changed = Some (Some o) ->
      exists o0, find k registry0 = Some (Some o0) /\
                 find k m' = Some (Some (if is_default o then o0
                                         else set (value_ o) o0)).
Proof.
  apply (config_string_reload_into registry_changed registry0); reflexivity.
Defined.

(** ** The command line, token by token *)

Lemma skipn_nth_error (argv : list str) :
  forall idx,
    skipn idx argv =
    match nth_error argv idx with
    | Some x => x :: skipn (S idx) argv
    | None => []
    end.
Proof.
  induction argv as [|a argv IH]; intros [|idx]; try reflexivity.
  cbn [skipn nth_error]. apply IH.
Qed.

Lemma load_args_loop_tokens (argv : list str) (fuel : nat) :
  forall (idx : nat) (m : ConfigOptions),
    idx <= length argv -> length argv - idx < fuel ->
    load_args_loop fuel (length argv) argv idx m
      = Some (load_tokens (skipn idx argv) m).
Proof.
  induction fuel as [|fuel IH]; intros idx m Hidx Hfuel; [lia|].
  cbn [load_args_loop]. rewrite (skipn_nth_error argv idx).
  destruct (idx <? length argv) eqn:Hlt.
  - apply Nat.ltb_lt in Hlt.
    destruct (nth_error argv idx) as [key|] eqn:Hn;
      [|apply nth_error_None in Hn; lia].
    cbn [load_tokens].
    destruct (length key <? 3); [reflexivity|].
    destruct (negb (Ascii.eqb (at_ key 0) dash) && negb (Ascii.eqb (at_ key 1) dash));
      [reflexivity|].
    destruct (find (substr key 2 (length key - 1)) m) as [[o|]|]; try reflexivity.
    destruct (is_bool o).
    + destruct (parse_value_from_str (lit "true") o); [reflexivity|].
      apply IH; lia.
    + replace (idx =? length argv) with false by (symmetry; apply Nat.eqb_neq; lia).
      rewrite (skipn_nth_error argv (S idx)).
      destruct (nth_error argv (S idx)) as [v|] eqn:Hv; [|reflexivity].
      assert (S idx < length argv) by (apply nth_error_Some; congruence).
      destruct ((1 <? length v) && Ascii.eqb (at_ v 0) dash && Ascii.eqb (at_ v 1) dash);
        [reflexivity|].
      destruct (parse_value_from_str v o); [reflexivity|].
      apply IH; lia.
  - apply Nat.ltb_ge in Hlt.
    replace (nth_error argv idx) with (@None str)
      by (symmetry; apply nth_error_None; lia).
    reflexivity.
Qed.

(** With [argc] the number of arguments, [load(argc, argv)] consumes the
    arguments after the program name from the left. *)
Lemma load_argv_tokens (argv : list str) (m : ConfigOptions) :
  load_argv (length argv) argv m = Some (load_tokens (tl argv) m).
Proof.
  unfold load_argv. destruct (length argv <? 2) eqn:E.
  - apply Nat.ltb_lt in E. destruct argv as [|a [|b argv]]; try reflexivity.
    simpl in E. lia.
  - apply Nat.ltb_ge in E. rewrite load_args_loop_tokens by lia.
    now destruct argv.
Qed.

Lemma key_token (k : str) :
  k <> [] ->
  (length (dash :: dash :: k) <? 3) = false /\
  negb (Ascii.eqb (at_ (dash :: dash :: k) 0) dash)
    && negb (Ascii.eqb (at_ (dash :: dash :: k) 1) dash) = false /\
  substr (dash :: dash :: k) 2 (length (dash :: dash :: k) - 1) = k.
Proof.
  intros Hk. destruct k as [|c k]; [contradiction|]. repeat split.
  unfold substr. cbn [skipn length Nat.sub]. apply firstn_all2. simpl. lia.
Qed.

(** X14. A boolean key on the command line is a flag: [--k] sets the
    boolean option [k] to true and takes no value; the arguments after
    it are loaded as if it had not been there, into the registry it
    leaves. *)
Theorem load_argv_flag (exe k : str) (args : list str) (o : Option)
    (m : ConfigOptions) :
  k <> [] -> find k m = Some (Some o) -> is_bool o = true ->
  load_argv (length (exe :: (dash :: dash :: k) :: args))
            (exe :: (dash :: dash :: k) :: args) m
    = load_argv (length (exe :: args)) (exe :: args)
                (store k (set (VBool true) o) m).
Proof.
  intros Hk Hf Hb. rewrite !load_argv_tokens. cbn [tl load_tokens].
  destruct (key_token k Hk) as (-> & -> & ->). rewrite Hf, Hb.
  unfold parse_value_from_str. unfold is_bool in Hb.
  destruct (value_ o) as [z|b|s]; try discriminate Hb. reflexivity.
Qed.

Lemma load_argv_flag_witness :
  load_argv (length (lit "exename" :: (dash :: dash :: lit "opt5")
                       :: [lit "--opt1"; lit "4"]))
            (lit "exename" :: (dash :: dash :: lit "opt5") :: [lit "--opt1"; lit "4"])
            registry0
    = load_argv (length (lit "exename" :: [lit "--opt1"; lit "4"]))
                (lit "exename" :: [lit "--opt1"; lit "4"])
                (store (lit "opt5") (set (VBool true) opt5) registry0).
Proof.
  apply (load_argv_flag (lit "exename") (lit "opt5") [lit "--opt1"; lit "4"]
           opt5 registry0).
  - discriminate.
  - reflexivity.
  - reflexivity.
Defined.

(** X15. A key that is not boolean takes the next argument as its
    value: a value that begins with two dashes is refused with "... is
    an invalid value for key ..."; a value the codec refuses ends the
    load with the codec's exception; any other value is assigned, and
    the arguments after it are loaded into the registry that leaves. *)
Theorem load_argv_key_value (exe k v : str) (args : list str) (o : Option)
    (m : ConfigOptions) :
  k <> [] -> find k m = Some (Some o) -> is_bool o = false ->
  load_argv (length (exe :: (dash :: dash :: k) :: v :: args))
            (exe :: (dash :: dash :: k) :: v :: args) m
    = if looks_like_key v
      then Some (Threw (ConfigOptionsLoadException (msg_invalid_value v k)) m)
      else match parse_value_from_str v o with
           | inl e => Some (Threw e m)
           | inr o' => load_argv (length (exe :: args)) (exe :: args) (store k o' m)
           end.
Proof.
  intros Hk Hf Hb. rewrite !load_argv_tokens. cbn [tl load_tokens].
  destruct (key_token k Hk) as (-> & -> & ->). rewrite Hf, Hb.
  unfold looks_like_key.
  destruct ((1 <? length v) && Ascii.eqb (at_ v 0) dash && Ascii.eqb (at_ v 1) dash);
    [reflexivity|].
  destruct (parse_value_from_str v o) as [e|o']; [reflexivity|].
  now rewrite load_argv_tokens.
Qed.

Lemma load_argv_key_value_witness :
  load_argv (length (lit "exename" :: (dash :: dash :: lit "opt1") :: lit "4"
                       :: [lit "--opt3"; lit "test"]))
            (lit "exename" :: (dash :: dash :: lit "opt1") :: lit "4"
               :: [lit "--opt3"; lit "test"]) registry0
    = if looks_like_key (lit "4")
      then Some (Threw (ConfigOptionsLoadException
                          (msg_invalid_value (lit "4") (lit "opt1"))) registry0)
      else match parse_value_from_str (lit "4") opt1 with
           | inl e => Some (Threw e registry0)
           | inr o' => load_argv (length (lit "exename" :: [lit "--opt3"; lit "test"]))
                                 (lit "exename" :: [lit "--opt3"; lit "test"])
                                 (store (lit "opt1") o' registry0)
           end.
Proof.
  apply (load_argv_key_value (lit "exename") (lit "opt1") (lit "4")
           [lit "--opt3"; lit "test"] opt1 registry0).
  - discriminate.
  - reflexivity.
  - reflexivity.
Defined.

(** X16. A key that was never registered ends [load(argc, argv)] with
    "Unexpected key: ..." and the registry as it was; the arguments
    after it are not looked at. *)
Theorem load_argv_unknown_key (exe k : str) (args : list str) (m : ConfigOptions) :
  k <> [] -> find k m = None ->
  load_argv (length (exe :: (dash :: dash :: k) :: args))
            (exe :: (dash :: dash :: k) :: args) m
    = Some (Threw (ConfigOptionsLoadException (msg_unexpected_key k)) m).
Proof.
  intros Hk Hf. rewrite load_argv_tokens. cbn [tl load_tokens].
  destruct (key_token k Hk) as (-> & -> & ->). now rewrite Hf.
Qed.

Lemma load_argv_unknown_key_witness :
  load_argv (length (lit "exename" :: (dash :: dash :: lit "opt2") :: [lit "20.1"]))
            (lit "exename" :: (dash :: dash :: lit "opt2") :: [lit "20.1"]) registry0
    = Some (Threw (ConfigOptionsLoadException (msg_unexpected_key (lit "opt2")))
                  registry0).
Proof.
  apply (load_argv_unknown_key (lit "exename") (lit "opt2") [lit "20.1"] registry0).
  - discriminate.
  - reflexivity.
Defined.

Lemma remove_app_sp (a b : str) : remove sp (a ++ b) = remove sp a ++ remove sp b.
Proof. unfold remove. apply filter_app. Qed.

(** ** More on the text loader *)

(** A prefix without space or quote is left as it is. *)
Lemma strip_spaces_prefix (a b : str) :
  ~ In sp a -> ~ In dq a -> exists b', strip_spaces (a ++ b) = a ++ b'.
Proof.
  intros Hsp Hdq. destruct (in_dec ascii_dec dq b) as [Hin|Hn].
  - destruct (split_first _ _ Hin) as (pre & t & -> & Hpre).
    destruct (split_last (dq :: t) dq) as (u & post & Ht & Hpost); [now left|].
    rewrite Ht.
    assert (Hu : u = [] \/ exists w, u = dq :: w).
    { destruct u as [|x w]; [now left|]. right. exists w.
      simpl in Ht. now injection Ht as <- _. }
    rewrite app_assoc.
    destruct (strip_spaces_quoted (a ++ pre) u post) as [-> _]; auto.
    { intros H. apply in_app_or in H. tauto. }
    rewrite remove_app_sp, (remove_absent sp a Hsp), <- app_assoc. eauto.
  - destruct (strip_spaces_no_quote (a ++ b)) as [-> _].
    { intros H. apply in_app_or in H. tauto. }
    rewrite remove_app_sp, (remove_absent sp a Hsp). eauto.
Qed.

(** X17. A line whose key was never registered ends [load] of a string
    with "Unexpected key: ..." and the registry as it was; the lines
    after it are not looked at. *)
Theorem load_string_unknown_key (k v rest : str) (m : ConfigOptions) :
  key_ok k = true -> ~ In nl v -> find k m = None ->
  load_string ((k ++ eqc :: v) ++ nl :: rest) m
    = Some (Threw (ConfigOptionsLoadException (msg_unexpected_key k)) m).
Proof.
  intros Hk Hv Hf. unfold key_ok in Hk.
  apply andb_true_iff in Hk. destruct Hk as [Hk Hnl].
  apply andb_true_iff in Hk. destruct Hk as [Hk Heq].
  apply andb_true_iff in Hk. destruct Hk as [Hk Hdq].
  apply andb_true_iff in Hk. destruct Hk as [Hk Hsp].
  apply negb_true_iff in Hk. apply no_char_spec in Hsp, Hdq, Heq, Hnl.
  rewrite load_string_lines, lines_line.
  2:{ intros H. apply in_app_or in H. destruct H as [H|H]; [tauto|].
      apply in_inv in H. destruct H as [H|H]; [discriminate H | tauto]. }
  cbn [load_lines]. unfold load_line.
  destruct k as [|c k']; [discriminate Hk|]. set (k := c :: k') in *.
  replace (skipped (k ++ eqc :: v)) with false by (symmetry; exact Hk).
  destruct (strip_spaces_prefix (k ++ [eqc]) v) as [v' Hstrip].
  { intros H. apply in_app_or in H. destruct H as [H|[H|[]]]; [tauto | discriminate H]. }
  { intros H. apply in_app_or in H. destruct H as [H|[H|[]]]; [tauto | discriminate H]. }
  rewrite <- !app_assoc in Hstrip.
  change ([eqc] ++ v) with (eqc :: v) in Hstrip.
  change ([eqc] ++ v') with (eqc :: v') in Hstrip.
  change ((c :: k') ++ eqc :: v) with (k ++ eqc :: v). rewrite Hstrip.
  rewrite find_first_of_app by exact Heq.
  change (length k) with (S (length k')).
  unfold substr. cbn [skipn]. change (S (length k')) with (length k).
  rewrite firstn_length_app. unfold add_if_possible. now rewrite Hf.
Qed.

Lemma load_string_unknown_key_witness :
  load_string ((lit "opt2" ++ eqc :: lit "20.1") ++ nl :: lit "opt1=30") registry0
    = Some (Threw (ConfigOptionsLoadException (msg_unexpected_key (lit "opt2")))
                  registry0).
Proof.
  apply (load_string_unknown_key (lit "opt2") (lit "20.1") (lit "opt1=30") registry0).
  - reflexivity.
  - intros H. repeat (destruct H as [H|H]; [discriminate H|]). exact H.
  - reflexivity.
Defined.

(** X18. Removing the spaces outside the quotes a second time changes
    nothing. *)
Theorem strip_spaces_idempotent (line : str) :
  strip_spaces (strip_spaces line) = strip_spaces line.
Proof.
  destruct (in_dec ascii_dec dq line) as [Hin|Hn].
  - destruct (split_first _ _ Hin) as (pre & t & -> & Hpre).
    destruct (split_last (dq :: t) dq) as (u & post & Ht & Hpost); [now left|].
    rewrite Ht.
    assert (Hu : u = [] \/ exists w, u = dq :: w).
    { destruct u as [|x w]; [now left|]. right. exists w.
      simpl in Ht. now injection Ht as <- _. }
    destruct (strip_spaces_quoted pre u post Hpre Hpost Hu) as [-> _].
    destruct (strip_spaces_quoted (remove sp pre) u (remove sp post)) as [-> _]; auto.
    + now apply remove_keeps_absent.
    + now apply remove_keeps_absent.
    + now rewrite !(remove_absent sp (remove sp _)) by apply remove_not_in.
  - destruct (strip_spaces_no_quote line Hn) as [-> _].
    destruct (strip_spaces_no_quote (remove sp line)) as [-> _].
    + now apply remove_keeps_absent.
    + apply remove_absent, remove_not_in.
Qed.

(** ** Assignments through the registry *)

Lemma find_store_same (k : str) (o o' : Option) (m : ConfigOptions) :
  find k m = Some (Some o) -> find k (store k o' m) = Some (Some o').
Proof.
  induction m as [|[k' p] m IH]; cbn [find store]; [discriminate|].
  destruct (str_eqb k k') eqn:E; cbn [find]; rewrite E; auto.
Qed.

Lemma find_store_other (k k0 : str) (o' : Option) (m : ConfigOptions) :
  k <> k0 -> find k (store k0 o' m) = find k m.
Proof.
  intros Hne. induction m as [|[k' p] m IH]; cbn [find store]; [reflexivity|].
  destruct (str_eqb k0 k') eqn:E; cbn [find].
  - apply str_eqb_eq in E. subst k'. apply str_eqb_neq in Hne. now rewrite Hne.
  - now rewrite IH.
Qed.

(** X19. An assignment by key that succeeds changes the option of that
    key and no other: the option found under the key afterwards is the
    one [parse_value_from_str] made of the one found before, and every
    other key is found as before. *)
Theorem add_if_possible_changes_one (key value : str) (m m' : ConfigOptions) :
  add_if_possible key value m = Done m' ->
  (exists o o', find key m = Some (Some o) /\
                parse_value_from_str value o = inr o' /\
                find key m' = Some (Some o')) /\
  (forall k, k <> key -> find k m' = find k m).
Proof.
  unfold add_if_possible.
  destruct (find key m) as [[o|]|] eqn:Hf; try discriminate.
  destruct (parse_value_from_str value o) as [e|o'] eqn:Hp; [discriminate|].
  intros H. injection H as <-. split.
  - exists o, o'. repeat split; auto. now apply (find_store_same key o).
  - intros k Hk. now apply find_store_other.
Qed.

Lemma add_if_possible_changes_one_witness :
  (exists o o', find (lit "opt1") registry0 = Some (Some o) /\
                parse_value_from_str (lit "30") o = inr o' /\
                find (lit "opt1") (store (lit "opt1") (set (VInt 30) opt1) registry0)
                  = Some (Some o')) /\
  (forall k, k <> lit "opt1" ->
             find k (store (lit "opt1") (set (VInt 30) opt1) registry0)
               = find k registry0).
Proof.
  apply (add_if_possible_changes_one (lit "opt1") (lit "30") registry0
           (store (lit "opt1") (set (VInt 30) opt1) registry0)).
  reflexivity.
Defined.

(** ** A lookup of an unregistered name *)

Lemma in_insert_new (k : str) (p : ptr) (m : ConfigOptions) : In (k, p) (insert k p m).
Proof.
  induction m as [|[k' p'] m IH]; cbn [insert]; [now left|].
  destruct (compare k k'); [now left | now left | now right].
Qed.

Lemma to_config_string_null (m : ConfigOptions) (k : str) :
  In (k, nullptr) m -> to_config_string m = None.
Proof.
  induction m as [|[k' p'] m IH]; cbn [In to_config_string]; [contradiction|].
  intros [H|H].
  - injection H as -> ->. reflexivity.
  - destruct p'; [|reflexivity]. now rewrite IH.
Qed.

(** X20. After [get] was called with a name that is not registered, the
    registry cannot be used: [to_config_string()] dereferences the null
    pointer [get] left under the name, and so does a load that assigns
    to that name. *)
Theorem get_absent_breaks_registry (_name value : str) (m : ConfigOptions) :
  find _name m = None ->
  to_config_string (snd (get _name m)) = None /\
  add_if_possible _name value (snd (get _name m)) = Undefined.
Proof.
  intros Hf. unfold get, subscript. rewrite Hf. cbn [snd]. split.
  - apply (to_config_string_null _ _name), in_insert_new.
  - unfold add_if_possible. now rewrite find_insert_same.
Qed.

Lemma get_absent_breaks_registry_witness :
  to_config_string (snd (get (lit "opt2") registry0)) = None /\
  add_if_possible (lit "opt2") (lit "20.1") (snd (get (lit "opt2") registry0))
    = Undefined.
Proof.
  apply (get_absent_breaks_registry (lit "opt2") (lit "20.1") registry0). reflexivity.
Defined.

(** ** Range of the generic decoder *)

Lemma get_put_int_any (z : Z) :
  get_int (put_int z) = if in_int z then Some z else None.
Proof.
  unfold put_int, get_int.
  destruct (z <? 0)%Z eqn:E.
  - apply Z.ltb_lt in E.
    destruct (digits_spec (- z)) as (Hne & Hdig & Hval); [lia|].
    change (skipws (dash :: digits (- z))) with (dash :: digits (- z)).
    cbv beta iota zeta. rewrite Ascii.eqb_refl.
    rewrite <- (app_nil_r (digits (- z))), take_digits_all by (exact Hdig || exact I).
    destruct (digits (- z)) as [|c l] eqn:Ed; [contradiction|].
    now rewrite Hval, Z.opp_involutive.
  - destruct (digits_spec z) as (Hne & Hdig & Hval); [apply Z.ltb_ge in E; lia|].
    destruct (digits z) as [|c l] eqn:Ed; [contradiction|].
    assert (Hc : is_digit c = true) by (now inversion Hdig).
    destruct (digit_plain c Hc) as (Hsp & Hdash & Hplus & _).
    cbn [skipws]. rewrite Hsp. cbv beta iota zeta.
    apply Ascii.eqb_neq in Hdash, Hplus. rewrite Hdash, Hplus.
    rewrite <- (app_nil_r (c :: l)), take_digits_all by (exact Hdig || exact I).
    now rewrite Hval.
Qed.

(** X21. The generic decoder accepts the decimal text of an integer
    exactly when the integer is in the range of [int]: inside the range
    it gives the integer back, outside it throws
    "Unable to parse ... to its defined type". *)
Theorem generic_decoder_range (z d : Z) :
  from_string_helper (put_int z) (VInt d) =
  if in_int z then inr (VInt z)
  else inl (StringParseException
              (lit "Unable to parse " ++ put_int z ++ lit " to its defined type")).
Proof.
  cbn [from_string_helper]. unfold from_string_helper_generic.
  rewrite get_put_int_any. now destruct (in_int z).
Qed.
